(** * A shallow embedding of the mini chess engine of [chess_game.py]

    The development follows the three classes of the engine:

    - [Board]    : the 8x8 grid, its accessors and its mutators;
    - [Rules]    : the per-kind pseudo-legal move generator;
    - [SimpleAI] : the one-ply material-greedy move chooser.

    The first part is a value-level model (a board is the contents of its
    grid, every mutator returns the new contents).  Module [Store] then
    models the same class over an object store with explicit references,
    which is where [deepcopy] and aliasing can be talked about, and links
    every store operation back to its value-level counterpart. *)

From stdpp Require Import gmap list.
From Stdlib Require Import ZArith QArith Lia.

Local Open Scope Z_scope.

(** ** Config and constants *)

Definition ROWS : Z := 8.
Definition COLS : Z := 8.

(** The colour tags ['w'] and ['b'] and the piece tags ['P'], ['N'], ['B'],
    ['R'], ['Q'], ['K'] of the program are the constructors below. *)
Inductive Color := White | Black.
Inductive PieceKind := Pawn | Knight | Bishop | Rook | Queen | King.

#[global] Instance Color_eq_dec : EqDecision Color.
Proof. solve_decision. Defined.
#[global] Instance PieceKind_eq_dec : EqDecision PieceKind.
Proof. solve_decision. Defined.

(** A piece is the pair [(color, type)]; a cell of the grid is a piece or
    [None]. *)
Abbreviation Piece := (Color * PieceKind)%type.
Abbreviation cell := (option Piece).
Abbreviation Square := (Z * Z)%type.
(** The generator's moves are the pairs [((r, c), (nr, nc))]. *)
Abbreviation Move := (Square * Square)%type.

Definition MATERIAL_VALUES (ptype : PieceKind) : Z :=
  match ptype with
  | Pawn => 1
  | Knight => 3
  | Bishop => 3
  | Rook => 5
  | Queen => 9
  | King => 0
  end.

(** ** Board: representation and state *)

Record Board := mkBoard { grid : list (list cell) }.

(** [for r in range(ROWS): for c in range(COLS)], in scan order. *)
Definition squares : list Square :=
  r ← seqZ 0 ROWS; c ← seqZ 0 COLS; [(r, c)].

Definition back_rank (color : Color) : list cell :=
  [Some (color, Rook); Some (color, Knight); Some (color, Bishop);
   Some (color, Queen); Some (color, King); Some (color, Bishop);
   Some (color, Knight); Some (color, Rook)].

(** [reset] assigns the eight rows of the grid by index. *)
Definition reset (b : Board) : Board :=
  let g := grid b in
  let g := <[0%nat := back_rank Black]> g in
  let g := <[1%nat := replicate 8 (Some (Black, Pawn))]> g in
  let g := foldl (λ g r, <[r := replicate 8 None]> g) g (seq 2 4) in
  let g := <[6%nat := replicate 8 (Some (White, Pawn))]> g in
  let g := <[7%nat := back_rank White]> g in
  mkBoard g.

(** [Board()] : an empty 8x8 grid, then [reset]. *)
Definition Board_init : Board :=
  reset (mkBoard (replicate (Z.to_nat ROWS) (replicate (Z.to_nat COLS) None))).

Definition in_bounds (r c : Z) : bool :=
  (0 <=? r) && (r <? ROWS) && (0 <=? c) && (c <? COLS).

(** [self.grid[r][c]] for indexes already known to be in range (every use
    is behind [in_bounds] or a [range] loop, so Python's negative indexes
    never come into play). *)
Definition cell_at (b : Board) (r c : Z) : cell :=
  match grid b !! Z.to_nat r with
  | Some row => default None (row !! Z.to_nat c)
  | None => None
  end.

Definition get (b : Board) (r c : Z) : cell :=
  if in_bounds r c then cell_at b r c else None.

Definition set (b : Board) (r c : Z) (piece : cell) : Board :=
  if in_bounds r c
  then mkBoard (alter (λ row, <[Z.to_nat c := piece]> row) (Z.to_nat r) (grid b))
  else b.

(** The "pawn promotion simple rule" of [move_piece]. *)
Definition promoted (color : Color) (ptype : PieceKind) (dr : Z)
    (promotion : option PieceKind) : PieceKind :=
  match ptype with
  | Pawn =>
      match color with
      | White => if dr =? 0 then default Queen promotion else ptype
      | Black => if dr =? 7 then default Queen promotion else ptype
      end
  | _ => ptype
  end.

Definition move_piece (b : Board) (src dst : Square)
    (promotion : option PieceKind) : Board :=
  let '(sr, sc) := src in
  let '(dr, dc) := dst in
  match get b sr sc with
  | None => b
  | Some (color, ptype) =>
      let ptype := promoted color ptype dr promotion in
      let b := set b dr dc (Some (color, ptype)) in
      set b sr sc None
  end.

(** On values a deep copy is the same grid again; the copying itself is
    modelled on the object store, see [Store.clone]. *)
Definition clone (b : Board) : Board := mkBoard (grid b).

(** The body of the double loop of [material_score], for the cell read. *)
Definition material_add (color : Color) (score : Z) (piece : cell) : Z :=
  match piece with
  | Some (pcolor, ptype) =>
      let val := MATERIAL_VALUES ptype in
      score + (if decide (pcolor = color) then val else - val)
  | None => score
  end.

Definition material_step (b : Board) (color : Color) (score : Z) (sq : Square) : Z :=
  material_add color score (cell_at b sq.1 sq.2).

Definition material_score (b : Board) (color : Color) : Z :=
  foldl (material_step b color) 0 squares.

(** Shape of every grid the class builds: 8 rows of 8 cells. *)
Definition wf_board (b : Board) : Prop :=
  length (grid b) = 8%nat ∧ Forall (λ row, length row = 8%nat) (grid b).

(** Number of occupied cells. *)
Definition piece_count (b : Board) : nat :=
  length (filter is_Some (concat (grid b))).

(** ** Rules: move generation per piece *)

Definition is_enemy (piece : cell) (color : Color) : bool :=
  match piece with
  | Some (pcolor, _) => bool_decide (pcolor ≠ color)
  | None => false
  end.

Definition is_empty (piece : cell) : bool :=
  match piece with
  | None => true
  | Some _ => false
  end.

Definition dir_forward (color : Color) : Z :=
  match color with White => -1 | Black => 1 end.

Definition start_row (color : Color) : Z :=
  match color with White => 6 | Black => 1 end.

Definition pawn_moves (b : Board) (r c : Z) (piece : Piece) : list Move :=
  let color := piece.1 in
  let nr := r + dir_forward color in
  let nc := c in
  let forward :=
    if in_bounds nr nc && is_empty (get b nr nc) then
      let nr2 := nr + dir_forward color in
      ((r, c), (nr, nc)) ::
      (if (r =? start_row color) && in_bounds nr2 nc && is_empty (get b nr2 nc)
       then [((r, c), (nr2, nc))] else [])
    else [] in
  let captures :=
    dc ← [-1; 1];
    let cr := r + dir_forward color in
    let cc := c + dc in
    if in_bounds cr cc && is_enemy (get b cr cc) color
    then [((r, c), (cr, cc))] else [] in
  forward ++ captures.

(** One step of the [for dr, dc in deltas] loops of the knight and the king. *)
Definition step_move (b : Board) (r c : Z) (color : Color) (d : Z * Z) : list Move :=
  let nr := r + d.1 in
  let nc := c + d.2 in
  if negb (in_bounds nr nc) then []
  else
    let target := get b nr nc in
    if is_empty target || is_enemy target color then [((r, c), (nr, nc))] else [].

Definition knight_deltas : list (Z * Z) :=
  [(-2, -1); (-2, 1); (2, -1); (2, 1); (-1, -2); (-1, 2); (1, -2); (1, 2)].

Definition knight_moves (b : Board) (r c : Z) (piece : Piece) : list Move :=
  d ← knight_deltas; step_move b r c piece.1 d.

(** [for dr in (-1,0,1): for dc in (-1,0,1): if dr == 0 and dc == 0: continue]. *)
Definition king_deltas : list (Z * Z) :=
  dr ← [-1; 0; 1]; dc ← [-1; 0; 1];
  if (dr =? 0) && (dc =? 0) then [] else [(dr, dc)].

Definition king_moves (b : Board) (r c : Z) (piece : Piece) : list Move :=
  d ← king_deltas; step_move b r c piece.1 d.

(** The [while board.in_bounds(nr, nc)] loop of [_sliding_moves], run for at
    most [fuel] iterations.  [ray_fuel_stable] below shows that [ROWS]
    iterations always reach the end of the loop when the direction is not
    [(0, 0)], and [sliding_moves_fuel_stable] that the generator's result
    is the same with any larger number of iterations. *)
Fixpoint ray (fuel : nat) (b : Board) (r c : Z) (color : Color)
    (nr nc dr dc : Z) : list Move :=
  match fuel with
  | O => []
  | S fuel =>
      if in_bounds nr nc then
        match get b nr nc with
        | None => ((r, c), (nr, nc)) :: ray fuel b r c color (nr + dr) (nc + dc) dr dc
        | Some _ as target =>
            if is_enemy target color then [((r, c), (nr, nc))] else []
        end
      else []
  end.

Definition sliding_moves_fuel (fuel : nat) (b : Board) (r c : Z) (piece : Piece)
    (directions : list (Z * Z)) : list Move :=
  d ← directions;
  ray fuel b r c piece.1 (r + d.1) (c + d.2) d.1 d.2.

Definition sliding_moves : Board → Z → Z → Piece → list (Z * Z) → list Move :=
  sliding_moves_fuel (Z.to_nat ROWS).

Definition bishop_directions : list (Z * Z) := [(-1, -1); (-1, 1); (1, -1); (1, 1)].
Definition rook_directions : list (Z * Z) := [(-1, 0); (1, 0); (0, -1); (0, 1)].
Definition queen_directions : list (Z * Z) :=
  [(-1, -1); (-1, 1); (1, -1); (1, 1); (-1, 0); (1, 0); (0, -1); (0, 1)].

Definition piece_moves (b : Board) (r c : Z) (piece : Piece) : list Move :=
  match piece.2 with
  | Pawn => pawn_moves b r c piece
  | Knight => knight_moves b r c piece
  | Bishop => sliding_moves b r c piece bishop_directions
  | Rook => sliding_moves b r c piece rook_directions
  | Queen => sliding_moves b r c piece queen_directions
  | King => king_moves b r c piece
  end.

Definition generate_legal_moves (b : Board) (turn_color : Color) : list Move :=
  sq ← squares;
  match get b sq.1 sq.2 with
  | Some piece =>
      if decide (piece.1 = turn_color) then piece_moves b sq.1 sq.2 piece else []
  | None => []
  end.

(** ** Simple AI: 1-ply material capture preference *)

Definition capture_value (captured : cell) : Z :=
  match captured with
  | Some (_, ptype) => MATERIAL_VALUES ptype
  | None => 0
  end.

(** [eval_score] of one candidate.  The program computes it in binary
    floating point; the model keeps the exact rational.  The two agree on
    every comparison the loop makes: the material score is an integer of at
    most three digits and the bonus one of 0, 0.1, 0.3, 0.5, 0.9, so two
    scores that differ as rationals differ by at least 0.1, far above the
    rounding error, and equal rationals are computed by the same float
    operations. *)
Definition eval_score (b : Board) (color : Color) (move : Move) : Q :=
  let '(src, dst) := move in
  let captured := get b dst.1 dst.2 in
  let capture_bonus := capture_value captured in
  let sim := clone b in
  let sim := move_piece sim src dst None in
  (inject_Z (material_score sim color) + (1 # 10) * inject_Z capture_bonus)%Q.

(** The first loop: [best_score] starts at [-math.inf] (here [None]). *)
Definition best_step (b : Board) (color : Color)
    (st : option Q * list Move) (move : Move) : option Q * list Move :=
  let '(best_score, best_moves) := st in
  let s := eval_score b color move in
  match best_score with
  | None => (Some s, [move])
  | Some best =>
      match (s ?= best)%Q with
      | Gt => (Some s, [move])
      | Eq => (best_score, best_moves ++ [move])
      | Lt => st
      end
  end.

Definition best_moves (b : Board) (color : Color) (moves : list Move) : list Move :=
  (foldl (best_step b color) (None, []) moves).2.

(** The second loop: captures of the most valuable piece among the best. *)
Definition capture_step (b : Board)
    (st : list Move * Z) (mv : Move) : list Move * Z :=
  let '(capture_best, cap_best_val) := st in
  match get b mv.2.1 mv.2.2 with
  | Some (_, ptype) =>
      let val := MATERIAL_VALUES ptype in
      if cap_best_val <? val then ([mv], val)
      else if val =? cap_best_val then (capture_best ++ [mv], cap_best_val)
      else st
  | None => st
  end.

Definition capture_best (b : Board) (bests : list Move) : list Move :=
  (foldl (capture_step b) ([], 0) bests).1.

(** What a call can do: raise, or return a value. *)
Inductive outcome (A : Type) :=
  | Raised
  | Returned (a : A).
Arguments Raised {A}.
Arguments Returned {A} a.

(** [random.choice(seq)]: [IndexError] on an empty sequence, otherwise the
    element at an index below [len(seq)] drawn by the generator; [rnd]
    stands for the generator's draw. *)
Definition random_choice {A} (rnd : nat) (l : list A) : outcome A :=
  match l !! (rnd mod length l)%nat with
  | Some x => Returned x
  | None => Raised
  end.

(** The list handed to [random.choice]. *)
Definition final_candidates (b : Board) (color : Color) : list Move :=
  let bests := best_moves b color (generate_legal_moves b color) in
  let caps := capture_best b bests in
  match caps with
  | [] => bests
  | _ => caps
  end.

Definition choose_move (rnd : nat) (b : Board) (color : Color) : outcome (option Move) :=
  let moves := generate_legal_moves b color in
  match moves with
  | [] => Returned None
  | _ =>
      match random_choice rnd (final_candidates b color) with
      | Raised => Raised
      | Returned m => Returned (Some m)
      end
  end.

(** ** The class [Board] over an object store

    A [Board] instance holds a reference to its grid; the grid is a list
    object holding references to eight row objects; a row is a list object
    holding the cells (the piece tuples are immutable and are kept as
    values).  Every operation returns [None] where the program would raise
    (a dangling or ill-typed reference, an index out of range). *)

Module Store.

Inductive obj :=
  | ORow (cells : list cell)
  | OGrid (rows : list nat)
  | OBoard (grid_attr : nat).

Abbreviation loc := nat (only parsing).
Abbreviation heap := (gmap nat obj) (only parsing).

(** A new object gets an identity no live object has. *)
Definition alloc (h : heap) (o : obj) : loc * heap :=
  let l := fresh (dom h) in (l, <[l := o]> h).

Definition grid_ref (h : heap) (b : loc) : option loc :=
  match h !! b with Some (OBoard g) => Some g | _ => None end.

Definition rows_of (h : heap) (g : loc) : option (list loc) :=
  match h !! g with Some (OGrid rs) => Some rs | _ => None end.

Definition cells_of (h : heap) (l : loc) : option (list cell) :=
  match h !! l with Some (ORow cs) => Some cs | _ => None end.

(** [self.grid[r]] *)
Definition row_ref (h : heap) (b : loc) (r : nat) : option loc :=
  g ← grid_ref h b; rs ← rows_of h g; rs !! r.

(** [self.grid[r][c]] *)
Definition cell_at (h : heap) (b : loc) (r c : Z) : option cell :=
  l ← row_ref h b (Z.to_nat r); cs ← cells_of h l; cs !! Z.to_nat c.

Definition get (h : heap) (b : loc) (r c : Z) : option cell :=
  if in_bounds r c then cell_at h b r c else Some None.

(** [self.grid[r][c] = piece] updates the row object in place. *)
Definition set (h : heap) (b : loc) (r c : Z) (piece : cell) : option heap :=
  if in_bounds r c then
    l ← row_ref h b (Z.to_nat r);
    cs ← cells_of h l;
    _ ← cs !! Z.to_nat c;
    Some (<[l := ORow (<[Z.to_nat c := piece]> cs)]> h)
  else Some h.

Definition move_piece (h : heap) (b : loc) (src dst : Square)
    (promotion : option PieceKind) : option heap :=
  let '(sr, sc) := src in
  let '(dr, dc) := dst in
  piece ← get h b sr sc;
  match piece with
  | None => Some h
  | Some (color, ptype) =>
      let ptype := promoted color ptype dr promotion in
      h ← set h b dr dc (Some (color, ptype));
      set h b sr sc None
  end.

(** [self.grid[r] = row]: the right-hand side is a new list object, whose
    reference is stored in the grid at index [r]. *)
Definition assign_row (h : heap) (b : loc) (r : nat) (row : list cell) : option heap :=
  let '(l, h) := alloc h (ORow row) in
  g ← grid_ref h b;
  rs ← rows_of h g;
  _ ← rs !! r;
  Some (<[g := OGrid (<[r := l]> rs)]> h).

Fixpoint assign_rows (h : heap) (b : loc) (idx : list nat) (row : list cell) : option heap :=
  match idx with
  | [] => Some h
  | r :: idx => h ← assign_row h b r row; assign_rows h b idx row
  end.

Definition reset (h : heap) (b : loc) : option heap :=
  h ← assign_row h b 0 (back_rank Black);
  h ← assign_row h b 1 (replicate 8 (Some (Black, Pawn)));
  h ← assign_rows h b (seq 2 4) (replicate 8 None);
  h ← assign_row h b 6 (replicate 8 (Some (White, Pawn)));
  assign_row h b 7 (back_rank White).

(** [[[None for _ in range(COLS)] for _ in range(ROWS)]] *)
Fixpoint alloc_rows (h : heap) (n : nat) (row : list cell) : list loc * heap :=
  match n with
  | O => ([], h)
  | S n =>
      let '(l, h) := alloc h (ORow row) in
      let '(ls, h) := alloc_rows h n row in
      (l :: ls, h)
  end.

(** [Board()] *)
Definition init (h : heap) : option (loc * heap) :=
  let '(rs, h) := alloc_rows h (Z.to_nat ROWS) (replicate (Z.to_nat COLS) None) in
  let '(g, h) := alloc h (OGrid rs) in
  let '(b, h) := alloc h (OBoard g) in
  h ← reset h b;
  Some (b, h).

(** [deepcopy] of the elements of the grid: a row already copied (found
    in the memo table) is shared again, any other row is copied to a new
    list object.  The cells are immutable values and are kept. *)
Fixpoint copy_rows (h : heap) (memo : gmap nat nat) (rs : list loc)
    : option (list loc * heap) :=
  match rs with
  | [] => Some ([], h)
  | l :: rs =>
      match memo !! l with
      | Some l' =>
          '(ls, h) ← copy_rows h memo rs;
          Some (l' :: ls, h)
      | None =>
          cs ← cells_of h l;
          let '(l', h) := alloc h (ORow cs) in
          '(ls, h) ← copy_rows h (<[l := l']> memo) rs;
          Some (l' :: ls, h)
      end
  end.

(** [b = Board.__new__(Board); b.grid = deepcopy(self.grid); return b].
    The new instance, its grid and its rows are new objects; the order in
    which they get their identities cannot be observed by the program and
    is not kept. *)
Definition clone (h : heap) (b : loc) : option (loc * heap) :=
  g ← grid_ref h b;
  rs ← rows_of h g;
  '(rs', h) ← copy_rows h ∅ rs;
  let '(g', h) := alloc h (OGrid rs') in
  let '(b', h) := alloc h (OBoard g') in
  Some (b', h).

Fixpoint score_loop (h : heap) (b : loc) (color : Color)
    (sqs : list Square) (score : Z) : option Z :=
  match sqs with
  | [] => Some score
  | sq :: sqs =>
      piece ← cell_at h b sq.1 sq.2;
      score_loop h b color sqs (material_add color score piece)
  end.

Definition material_score (h : heap) (b : loc) (color : Color) : option Z :=
  score_loop h b color squares 0.

(** The mutators of the class, as data. *)
Inductive mutation :=
  | MSet (r c : Z) (piece : cell)
  | MMove (src dst : Square) (promotion : option PieceKind)
  | MReset.

Definition apply (h : heap) (b : loc) (m : mutation) : option heap :=
  match m with
  | MSet r c piece => set h b r c piece
  | MMove src dst promotion => move_piece h b src dst promotion
  | MReset => reset h b
  end.

Fixpoint run (h : heap) (b : loc) (ms : list mutation) : option heap :=
  match ms with
  | [] => Some h
  | m :: ms => h ← apply h b m; run h b ms
  end.

(** The contents of the board an instance stands for. *)
Definition contents (h : heap) (b : loc) : option Board :=
  g ← grid_ref h b;
  rs ← rows_of h g;
  rows ← mapM (cells_of h) rs;
  Some (mkBoard rows).

(** [repr h b g rs bd]: in store [h] the instance [b] has the grid object
    [g], whose rows are the distinct row objects [rs], and stands for the
    8x8 board [bd]. *)
Definition repr (h : heap) (b g : loc) (rs : list loc) (bd : Board) : Prop :=
  h !! b = Some (OBoard g) ∧ h !! g = Some (OGrid rs) ∧
  NoDup rs ∧ length rs = 8%nat ∧
  Forall2 (λ l cs, h !! l = Some (ORow cs) ∧ length cs = 8%nat) rs (grid bd).

(** The objects an instance is made of. *)
Definition objects (b g : loc) (rs : list loc) : gset nat :=
  {[b; g]} ∪ list_to_set rs.

(** [updates h b g rs h' rs']: going from [h] to [h'] only the objects of
    the instance were written or replaced by newly allocated ones. *)
Definition updates (h : heap) (b g : loc) (rs : list loc)
    (h' : heap) (rs' : list loc) : Prop :=
  (∀ l, l ∈ dom h → l ∉ objects b g rs → h' !! l = h !! l) ∧
  objects b g rs' ⊆ objects b g rs ∪ (dom h' ∖ dom h) ∧
  dom h ⊆ dom h'.

(** An instance as the class builds it: a grid of eight distinct rows of
    eight cells. *)
Definition wf (h : heap) (b : loc) : Prop :=
  match grid_ref h b with
  | Some g =>
      match rows_of h g with
      | Some rs =>
          NoDup rs ∧ length rs = 8%nat ∧
          Forall (λ l, match cells_of h l with
                       | Some cs => length cs = 8%nat
                       | None => False
                       end) rs
      | None => False
      end
  | None => False
  end.

#[global] Instance wf_dec h b : Decision (wf h b).
Proof.
  unfold wf. destruct (grid_ref h b) as [g|]; [|apply _].
  destruct (rows_of h g) as [rs|]; [|apply _].
  apply and_dec; [apply _|]. apply and_dec; [apply _|].
  apply Forall_dec. intros x. destruct (cells_of h x); apply _.
Defined.

End Store.

(** The value-level reading of a mutator. *)
Definition apply_value (b : Board) (m : Store.mutation) : Board :=
  match m with
  | Store.MSet r c piece => set b r c piece
  | Store.MMove src dst promotion => move_piece b src dst promotion
  | Store.MReset => reset b
  end.

(** ** Boards and selections used in the statements *)

Definition empty_board : Board :=
  mkBoard (replicate (Z.to_nat ROWS) (replicate (Z.to_nat COLS) None)).

(** A board empty except for one rook on (3, 3). *)
Definition lone_rook (color : Color) : Board :=
  set empty_board 3 3 (Some (color, Rook)).

(** The moves of a list that leave (r, c) and stay on its file: the
    forward, non-capturing moves of a pawn standing there. *)
Definition forward_moves (moves : list Move) (r c : Z) : list Move :=
  filter (λ m : Move, m.1 = (r, c) ∧ m.2.2 = c) moves.

(** What every generated move satisfies, for a piece of [color] on (r, c):
    it leaves (r, c) for an in-range square that is empty or holds an
    enemy piece. *)
Definition move_ok (b : Board) (color : Color) (r c : Z) (m : Move) : Prop :=
  m.1 = (r, c) ∧ in_bounds m.2.1 m.2.2 = true ∧
  (is_empty (get b m.2.1 m.2.2) || is_enemy (get b m.2.1 m.2.2) color) = true.

(** The store after [Board()] is run on the empty store, with the new
    instance. *)
Definition start_store : nat * gmap nat Store.obj :=
  default (0%nat, ∅) (Store.init ∅).

(** ** Game: input handling

    The part of the class [Game] that decides what a click or an AI turn
    does to the game: the board, the selection, the cached moves of the
    selected piece and the side to move.  The window, the clock and the
    drawing neither read nor write anything else and are left out. *)

Definition WIDTH : Z := 640.
Definition HEIGHT : Z := 640.
(** [WIDTH // COLS]; [Z.div] is the floor division of Python. *)
Definition SQUARE_SIZE : Z := WIDTH `div` COLS.

Record Game := mkGame {
  board : Board;
  selected : option Square;
  legal_moves_from_selected : list Move;
  current_turn : Color;
  ai_color : Color
}.

(** [Game(ai_color)], without the window. *)
Definition Game_init (ai : Color) : Game :=
  mkGame Board_init None [] White ai.

Definition coord_from_mouse (pos : Z * Z) : Square :=
  let '(x, y) := pos in
  let c := x `div` SQUARE_SIZE in
  let r := y `div` SQUARE_SIZE in
  (r, c).

Definition is_ai_turn (g : Game) : bool :=
  bool_decide (current_turn g = ai_color g).

Definition other_color (color : Color) : Color :=
  match color with White => Black | Black => White end.

(** [_post_move]: clear the selection, switch the turn. *)
Definition post_move (g : Game) : Game :=
  mkGame (board g) None [] (other_color (current_turn g)) (ai_color g).

(** The selection made by a click on (r, c): the square and the generated
    moves that leave it. *)
Definition select (g : Game) (r c : Z) : Game :=
  mkGame (board g) (Some (r, c))
    (filter (λ mv : Move, mv.1 = (r, c))
       (generate_legal_moves (board g) (current_turn g)))
    (current_turn g) (ai_color g).

(** [for mv in self.legal_moves_from_selected: ... if dst == (r, c): ...
    return]: the first cached move that ends on the clicked square is
    played. *)
Fixpoint try_moves (g : Game) (r c : Z) (mvs : list Move) : option Game :=
  match mvs with
  | [] => None
  | mv :: mvs =>
      let '(src, dst) := mv in
      if decide (dst = (r, c))
      then Some (post_move
                   (mkGame (move_piece (board g) src dst None) (selected g)
                      (legal_moves_from_selected g) (current_turn g) (ai_color g)))
      else try_moves g r c mvs
  end.

Definition owns (piece : cell) (color : Color) : bool :=
  match piece with
  | Some (pcolor, _) => bool_decide (pcolor = color)
  | None => false
  end.

Definition handle_click (g : Game) (pos : Z * Z) : Game :=
  let '(r, c) := coord_from_mouse pos in
  let piece := get (board g) r c in
  match selected g with
  | None => if owns piece (current_turn g) then select g r c else g
  | Some _ =>
      if owns piece (current_turn g) then select g r c
      else
        match try_moves g r c (legal_moves_from_selected g) with
        | Some g' => g'
        | None => mkGame (board g) None [] (current_turn g) (ai_color g)
        end
  end.

Definition ai_move_if_needed (rnd : nat) (g : Game) : outcome Game :=
  if negb (is_ai_turn g) then Returned g
  else
    match choose_move rnd (board g) (ai_color g) with
    | Raised => Raised
    | Returned None => Returned (post_move g)
    | Returned (Some mv) =>
        Returned (post_move
                    (mkGame (move_piece (board g) mv.1 mv.2 None) (selected g)
                       (legal_moves_from_selected g) (current_turn g) (ai_color g)))
    end.

(** The events the loop of [run] looks at. *)
Inductive event :=
  | QUIT
  | MOUSEBUTTONDOWN (button : Z) (pos : Z * Z)
  | OtherEvent.

(** [for event in pygame.event.get(): ...], on the pair of the game and
    the flag [running]. *)
Definition handle_event (st : Game * bool) (ev : event) : Game * bool :=
  let '(g, running) := st in
  match ev with
  | QUIT => (g, false)
  | MOUSEBUTTONDOWN button pos =>
      if button =? 1
      then if negb (is_ai_turn g) then (handle_click g pos, running) else st
      else st
  | OtherEvent => st
  end.

(** One iteration of the loop of [run]: the AI moves if it is its turn,
    then the pending events are handled. *)
Definition frame (rnd : nat) (g : Game) (events : list event) : outcome (Game * bool) :=
  match (if is_ai_turn g then ai_move_if_needed rnd g else Returned g) with
  | Raised => Raised
  | Returned g => Returned (foldl handle_event (g, true) events)
  end.

(** The loop of [run] over the draws and event batches of its iterations,
    until [running] is cleared. *)
Fixpoint frames (g : Game) (inputs : list (nat * list event)) : outcome Game :=
  match inputs with
  | [] => Returned g
  | (rnd, events) :: inputs =>
      match frame rnd g events with
      | Raised => Raised
      | Returned (g, running) => if running then frames g inputs else Returned g
      end
  end.

(** ** Notions used in the statements about the rest of the code *)

(** 1 for an occupied cell, 0 for an empty one. *)
Definition occupied (piece : cell) : nat :=
  match piece with Some _ => 1 | None => 0 end.

(** What a cell adds to the material score of [color]. *)
Definition contribution (color : Color) (piece : cell) : Z :=
  material_add color 0 piece.

(** The standard starting position, square by square. *)
Definition back_kind (c : Z) : PieceKind :=
  if (c =? 0) || (c =? 7) then Rook
  else if (c =? 1) || (c =? 6) then Knight
  else if (c =? 2) || (c =? 5) then Bishop
  else if c =? 3 then Queen
  else King.

Definition standard_cell (r c : Z) : cell :=
  if r =? 0 then Some (Black, back_kind c)
  else if r =? 1 then Some (Black, Pawn)
  else if r =? 6 then Some (White, Pawn)
  else if r =? 7 then Some (White, back_kind c)
  else None.

(** The squares strictly between (r, c) and its [k]-th successor in
    direction (dr, dc) are in range and empty. *)
Definition path_clear (b : Board) (r c dr dc k : Z) : Prop :=
  ∀ j, 1 ≤ j < k →
    in_bounds (r + j * dr) (c + j * dc) = true ∧
    get b (r + j * dr) (c + j * dc) = None.

(** A square a piece of [color] may land on: in range, and empty or held
    by the other side. *)
Definition landable (b : Board) (color : Color) (r c : Z) : Prop :=
  in_bounds r c = true ∧
  (get b r c = None ∨ ∃ ocolor optype, get b r c = Some (ocolor, optype) ∧ ocolor ≠ color).

(** What the game keeps between two calls: an 8x8 board, and a cache of
    moves that is exactly the generated moves of the selected square. *)
Definition game_inv (g : Game) : Prop :=
  wf_board (board g) ∧
  match selected g with
  | None => legal_moves_from_selected g = []
  | Some sq =>
      legal_moves_from_selected g
      = filter (λ mv : Move, mv.1 = sq)
          (generate_legal_moves (board g) (current_turn g))
  end.

(** One ply: a generated move of the side to move is applied and the turn
    passes to the other side. *)
Definition ply (g g' : Game) : Prop :=
  ∃ mv, mv ∈ generate_legal_moves (board g) (current_turn g) ∧
    board g' = move_piece (board g) mv.1 mv.2 None ∧
    current_turn g' = other_color (current_turn g) ∧
    ai_color g' = ai_color g ∧
    selected g' = None ∧ legal_moves_from_selected g' = [].

(** The direction set [generate_legal_moves] passes to [_sliding_moves]
    for each sliding kind. *)
Definition sliding_directions (ptype : PieceKind) : list (Z * Z) :=
  match ptype with
  | Bishop => bishop_directions
  | Rook => rook_directions
  | Queen => queen_directions
  | _ => []
  end.

(** The value of the piece a move lands on (0 on an empty square), and
    whether it lands on a piece, as [choose_move] reads them off the board
    before the move. *)
Definition captured_value (b : Board) (m : Move) : Z :=
  capture_value (get b m.2.1 m.2.2).

Definition captures (b : Board) (m : Move) : Prop :=
  get b m.2.1 m.2.2 ≠ None.

(** The state of the first loop after the moves [done]: the best score so
    far and the moves that reach it. *)
Definition best_inv (b : Board) (color : Color) (done : list Move)
    (st : option Q * list Move) : Prop :=
  match st.1 with
  | None => done = [] ∧ st.2 = []
  | Some best =>
      (∀ m, m ∈ done → (eval_score b color m <= best)%Q) ∧
      (∀ m, m ∈ st.2 ↔ m ∈ done ∧ (eval_score b color m == best)%Q)
  end.

(** The state of the second loop after the moves [done]: the highest
    value captured so far (0 at the start) and the captures that reach
    it. *)
Definition capture_inv (b : Board) (done : list Move) (st : list Move * Z) : Prop :=
  0 ≤ st.2 ∧
  (∀ m, m ∈ done → captures b m → captured_value b m ≤ st.2) ∧
  (∀ m, m ∈ st.1 ↔ m ∈ done ∧ captures b m ∧ captured_value b m = st.2) ∧
  (st.2 = 0 ∨ ∃ m, m ∈ done ∧ captures b m ∧ captured_value b m = st.2).

(** The ways the game goes from one state to the next: nothing but the
    selection changes; a ply; or the AI, having no move, passes the turn. *)
Definition same_position (g g' : Game) : Prop :=
  board g' = board g ∧ current_turn g' = current_turn g ∧ ai_color g' = ai_color g.

Definition pass (g g' : Game) : Prop :=
  is_ai_turn g = true ∧
  generate_legal_moves (board g) (current_turn g) = [] ∧
  board g' = board g ∧
  current_turn g' = other_color (current_turn g) ∧
  ai_color g' = ai_color g ∧
  selected g' = None ∧ legal_moves_from_selected g' = [].

Definition game_step (g g' : Game) : Prop :=
  same_position g g' ∨ ply g g' ∨ pass g g'.



(** * Properties *)

(** ** Bounds, [get] and [set] *)

Lemma in_bounds_true r c :
  in_bounds r c = true ↔ (0 ≤ r < 8 ∧ 0 ≤ c < 8).
Proof.
  unfold in_bounds, ROWS, COLS.
  rewrite !andb_true_iff, !Z.leb_le, !Z.ltb_lt. tauto.
Qed.

Lemma in_bounds_false r c :
  in_bounds r c = false ↔ ¬ (0 ≤ r < 8 ∧ 0 ≤ c < 8).
Proof. rewrite <- in_bounds_true. destruct (in_bounds r c); naive_solver. Qed.

Lemma get_in_bounds b r c p : get b r c = Some p → in_bounds r c = true.
Proof. unfold get. by destruct (in_bounds r c). Qed.

Lemma set_wf b r c p : wf_board b → wf_board (set b r c p).
Proof.
  intros [Hlen Hrows]. unfold set. destruct (in_bounds r c); [|done].
  split; simpl.
  - by rewrite length_alter.
  - apply Forall_alter; [done|]. intros row _ Hrow. by rewrite length_insert.
Qed.

Lemma reset_wf b : wf_board b → wf_board (reset b).
Proof.
  intros [Hlen Hrows]. split; simpl.
  - by rewrite !length_insert.
  - repeat (apply Forall_insert; [|done]). done.
Qed.

Lemma Board_init_wf : wf_board Board_init.
Proof. split; [done|]. vm_compute. repeat constructor. Qed.

Lemma wf_row b r :
  wf_board b → (0 ≤ r < 8) →
  ∃ row, grid b !! Z.to_nat r = Some row ∧ length row = 8%nat.
Proof.
  intros [Hlen Hrows] Hr.
  destruct (lookup_lt_is_Some_2 (grid b) (Z.to_nat r)) as [row Hrow]; [lia|].
  exists row. split; [done|].
  by apply (Forall_lookup_1 _ _ _ _ Hrows Hrow).
Qed.

Lemma get_set_eq b r c p :
  wf_board b → in_bounds r c = true → get (set b r c p) r c = p.
Proof.
  intros Hwf Hin. unfold get, set, cell_at. rewrite Hin. simpl.
  apply in_bounds_true in Hin as [Hr Hc].
  destruct (wf_row b r Hwf Hr) as (row & Hrow & Hlen).
  rewrite list_lookup_alter_eq, Hrow. simpl.
  rewrite list_lookup_insert_eq by lia. done.
Qed.

Lemma get_set_ne b r c p r' c' :
  (r, c) ≠ (r', c') → get (set b r c p) r' c' = get b r' c'.
Proof.
  intros Hne. unfold get, set.
  destruct (in_bounds r' c') eqn:Hin'; [|done].
  destruct (in_bounds r c) eqn:Hin; [|done].
  apply in_bounds_true in Hin as [Hr Hc].
  apply in_bounds_true in Hin' as [Hr' Hc'].
  unfold cell_at. simpl.
  destruct (decide (r = r')) as [->|Hrr].
  - rewrite list_lookup_alter_eq.
    destruct (grid b !! Z.to_nat r') as [row|]; [|done]. simpl.
    rewrite list_lookup_insert_ne; [done|]. intros Heq.
    apply Hne. f_equal. lia.
  - rewrite list_lookup_alter_ne by lia. done.
Qed.

Lemma clone_eq b : clone b = b.
Proof. by destruct b. Qed.

(** ** [material_score] *)



(** ** Counting pieces *)

Lemma count_row_clear (row : list cell) i p :
  row !! i = Some (Some p) →
  S (length (filter is_Some (<[i := None]> row))) = length (filter is_Some row).
Proof.
  revert i. induction row as [|x row IH]; intros [|i] Hi; simplify_eq/=.
  - rewrite filter_cons_False; [done|]. by intros [? ?].
  - rewrite !filter_cons. destruct (decide (is_Some x)); simpl.
    + f_equal. by apply IH.
    + by apply IH.
Qed.

Lemma count_grid_clear (g : list (list cell)) i j row p :
  g !! i = Some row → row !! j = Some (Some p) →
  S (length (filter is_Some (concat (alter (λ row, <[j := None]> row) i g))))
  = length (filter is_Some (concat g)).
Proof.
  revert i. induction g as [|x g IH]; intros [|i] Hi Hj; simplify_eq/=.
  - rewrite !filter_app, !length_app.
    rewrite <- (count_row_clear row j p Hj). lia.
  - rewrite !filter_app, !length_app.
    rewrite <- (IH i Hi Hj). lia.
Qed.

Lemma get_set_occupied b r c p q :
  get b r c = Some p → get (set b r c q) r c = q.
Proof.
  intros Hget. pose proof (get_in_bounds _ _ _ _ Hget) as Hin.
  unfold get, set, cell_at in *. rewrite Hin in *. simpl.
  rewrite list_lookup_alter_eq.
  destruct (grid b !! Z.to_nat r) as [row|]; [simpl|done].
  destruct (row !! Z.to_nat c) as [x|] eqn:Hc; [|done].
  rewrite list_lookup_insert_eq; [done|]. by eapply lookup_lt_Some.
Qed.

Lemma piece_count_clear b r c p :
  get b r c = Some p → S (piece_count (set b r c None)) = piece_count b.
Proof.
  intros Hget. pose proof (get_in_bounds _ _ _ _ Hget) as Hin.
  unfold get, set, cell_at, piece_count in *. rewrite Hin in *. simpl.
  destruct (grid b !! Z.to_nat r) as [row|] eqn:Hr; [|done].
  destruct (row !! Z.to_nat c) as [x|] eqn:Hc; [|done]. simpl in Hget. subst x.
  by eapply count_grid_clear.
Qed.

(** ** [Board]: moves, promotion, out-of-range squares *)

(** C8. For every board and every pair (r, c) with r or c outside [0, 8),
    [get] returns no piece and [set] leaves the board as it is; the same
    holds of the methods run on any object store, where neither raises. *)
Theorem out_of_range_get_set (b : Board) (r c : Z) (piece : cell) :
  ¬ (0 ≤ r < 8) ∨ ¬ (0 ≤ c < 8) →
  get b r c = None ∧ set b r c piece = b ∧
  ∀ (h : gmap nat Store.obj) (x : nat),
    Store.get h x r c = Some None ∧ Store.set h x r c piece = Some h.
Proof.
  intros Hout.
  assert (in_bounds r c = false) as Hin by (apply in_bounds_false; tauto).
  unfold get, set, Store.get, Store.set. by rewrite Hin.
Qed.

Lemma out_of_range_get_set_witness :
  (¬ (0 ≤ -1 < 8) ∨ ¬ (0 ≤ 3 < 8)) ∧
  get Board_init (-1) 3 = None ∧
  set Board_init (-1) 3 (Some (White, Queen)) = Board_init ∧
  ∀ (h : gmap nat Store.obj) (x : nat),
    Store.get h x (-1) 3 = Some None ∧
    Store.set h x (-1) 3 (Some (White, Queen)) = Some h.
Proof.
  assert (¬ (0 ≤ -1 < 8) ∨ ¬ (0 ≤ 3 < 8)) as Hout by (left; lia).
  split; [exact Hout|].
  exact (out_of_range_get_set Board_init (-1) 3 (Some (White, Queen)) Hout).
Defined.




(** C10. A move from an occupied in-range square to an out-of-range square
    only clears the source: nothing is written anywhere else, the piece is
    gone and the number of pieces on the board drops by one. *)
Theorem move_out_of_range_vanishes (b : Board) (sr sc dr dc : Z)
    (promotion : option PieceKind) (p : Piece) :
  get b sr sc = Some p →
  in_bounds dr dc = false →
  let b' := move_piece b (sr, sc) (dr, dc) promotion in
  b' = set b sr sc None ∧
  get b' sr sc = None ∧
  (∀ r c, (r, c) ≠ (sr, sc) → get b' r c = get b r c) ∧
  (piece_count b' < piece_count b)%nat ∧
  S (piece_count b') = piece_count b.
Proof.
  intros Hget Hout b'.
  assert (b' = set b sr sc None) as ->.
  { unfold b', move_piece. rewrite Hget. destruct p as [color ptype].
    unfold set at 2. by rewrite Hout. }
  split; [done|]. split; [by eapply get_set_occupied|].
  split; [intros r c Hne; by apply get_set_ne|].
  pose proof (piece_count_clear b sr sc p Hget). lia.
Qed.

Lemma move_out_of_range_vanishes_witness :
  get Board_init 1 0 = Some (Black, Pawn) ∧
  in_bounds 1 (-1) = false ∧
  let b' := move_piece Board_init (1, 0) (1, -1) None in
  b' = set Board_init 1 0 None ∧
  get b' 1 0 = None ∧
  (∀ r c, (r, c) ≠ (1, 0) → get b' r c = get Board_init r c) ∧
  (piece_count b' < piece_count Board_init)%nat ∧
  S (piece_count b') = piece_count Board_init.
Proof.
  split; [reflexivity|]. split; [reflexivity|].
  apply (move_out_of_range_vanishes Board_init 1 0 1 (-1) None (Black, Pawn));
    reflexivity.
Defined.

(** C1, as the program has it.  On an 8x8 board and for in-range squares:
    when the source holds a piece, [move_piece] writes it (promoted when it
    is a pawn reaching its last rank) on the destination, whatever stood
    there, then clears the source, and touches no other square; when the
    source is empty the board is left as it is. *)
Theorem move_piece_relocates (b : Board) (sr sc dr dc : Z)
    (promotion : option PieceKind) :
  wf_board b → in_bounds sr sc = true → in_bounds dr dc = true →
  let b' := move_piece b (sr, sc) (dr, dc) promotion in
  match get b sr sc with
  | Some (color, ptype) =>
      let placed := Some (color, promoted color ptype dr promotion) in
      b' = set (set b dr dc placed) sr sc None ∧
      get b' sr sc = None ∧
      ((sr, sc) ≠ (dr, dc) → get b' dr dc = placed) ∧
      (∀ r c, (r, c) ≠ (sr, sc) → (r, c) ≠ (dr, dc) → get b' r c = get b r c)
  | None => b' = b
  end.
Proof.
  intros Hwf Hsrc Hdst b'. unfold b', move_piece.
  destruct (get b sr sc) as [[color ptype]|] eqn:Hget; [|done].
  simpl. split; [done|]. split; [|split].
  - apply get_set_eq; [by apply set_wf|done].
  - intros Hne. rewrite get_set_ne by done. by apply get_set_eq.
  - intros r c Hs Hd. rewrite !get_set_ne by done. done.
Qed.

Lemma move_piece_relocates_witness :
  wf_board Board_init ∧ in_bounds 6 4 = true ∧ in_bounds 4 4 = true ∧
  let b' := move_piece Board_init (6, 4) (4, 4) None in
  let placed := Some (White, Pawn) in
  b' = set (set Board_init 4 4 placed) 6 4 None ∧
  get b' 6 4 = None ∧
  ((6, 4) ≠ (4, 4) → get b' 4 4 = placed) ∧
  (∀ r c, (r, c) ≠ (6, 4) → (r, c) ≠ (4, 4) → get b' r c = get Board_init r c).
Proof.
  assert (wf_board Board_init) as Hwf
    by (split; [reflexivity|vm_compute; repeat constructor]).
  split; [exact Hwf|]. split; [reflexivity|]. split; [reflexivity|].
  exact (move_piece_relocates Board_init 6 4 4 4 None Hwf eq_refl eq_refl).
Defined.

(** C1 as stated fails: with an empty source square the destination is not
    overwritten.  From the empty square (3, 3) to (0, 0) on the starting
    position, the black rook on (0, 0) stays and the board is unchanged. *)
Lemma move_piece_empty_source_counterexample :
  let b' := move_piece Board_init (3, 3) (0, 0) None in
  in_bounds 3 3 = true ∧ in_bounds 0 0 = true ∧
  get Board_init 3 3 = None ∧
  get b' 0 0 = Some (Black, Rook) ∧
  get b' 0 0 ≠ get Board_init 3 3 ∧
  b' = Board_init.
Proof. vm_compute. repeat split; congruence. Qed.

(** C3. A pawn moved onto an in-range square of its last rank (rank 0 for
    White, rank 7 for Black) from another square is written there as a
    piece of the same colour, of the promotion kind when one is given and a
    queen otherwise; in particular a white pawn moved from rank 1 to rank 0
    with no promotion kind leaves a white queen on the destination. *)
Theorem pawn_promotion (b : Board) (sr sc dr dc : Z) (color : Color)
    (promotion : option PieceKind) :
  wf_board b →
  get b sr sc = Some (color, Pawn) →
  in_bounds dr dc = true →
  dr = match color with White => 0 | Black => 7 end →
  let b' := move_piece b (sr, sc) (dr, dc) promotion in
  let placed := Some (color, default Queen promotion) in
  b' = set (set b dr dc placed) sr sc None ∧
  ((sr, sc) ≠ (dr, dc) → get b' dr dc = placed) ∧
  (color = White → sr = 1 → promotion = None →
   get b' dr dc = Some (White, Queen)).
Proof.
  intros Hwf Hget Hdst Hrank b' placed.
  assert (promoted color Pawn dr promotion = default Queen promotion) as Hk.
  { subst dr. by destruct color. }
  assert (b' = set (set b dr dc placed) sr sc None) as Hb'.
  { unfold b', move_piece. by rewrite Hget, Hk. }
  assert ((sr, sc) ≠ (dr, dc) → get b' dr dc = placed) as Hplaced.
  { intros Hne. rewrite Hb', get_set_ne by done. by apply get_set_eq. }
  split; [done|]. split; [done|].
  intros -> -> ->. apply Hplaced. subst dr. congruence.
Qed.

Lemma pawn_promotion_witness :
  let b := set Board_init 1 2 (Some (White, Pawn)) in
  wf_board b ∧ get b 1 2 = Some (White, Pawn) ∧ in_bounds 0 3 = true ∧
  let b' := move_piece b (1, 2) (0, 3) None in
  let placed := Some (White, Queen) in
  b' = set (set b 0 3 placed) 1 2 None ∧
  ((1, 2) ≠ (0, 3) → get b' 0 3 = placed) ∧
  (White = White → 1 = 1 → @None PieceKind = None →
   get b' 0 3 = Some (White, Queen)).
Proof.
  intros b.
  assert (wf_board b) as Hwf
    by (split; [reflexivity|vm_compute; repeat constructor]).
  split; [exact Hwf|]. split; [reflexivity|]. split; [reflexivity|].
  exact (pawn_promotion b 1 2 0 3 White None Hwf eq_refl eq_refl eq_refl).
Defined.

(** ** The move generator *)

Lemma squares_in_bounds r c : (r, c) ∈ squares ↔ in_bounds r c = true.
Proof.
  unfold squares. rewrite in_bounds_true, list_elem_of_bind. split.
  - intros (r' & Hc & Hr). apply list_elem_of_bind in Hc as (c' & Heq & Hc).
    apply list_elem_of_singleton in Heq. simplify_eq.
    apply elem_of_seqZ in Hr, Hc. unfold ROWS, COLS in *. lia.
  - intros [Hr Hc]. exists r. split; [|apply elem_of_seqZ; unfold ROWS; lia].
    apply list_elem_of_bind. exists c.
    split; [by apply list_elem_of_singleton|apply elem_of_seqZ; unfold COLS; lia].
Qed.

Lemma squares_NoDup : NoDup squares.
Proof. apply (bool_decide_unpack _). by vm_compute. Qed.

(** *** The sliding loop ends within [ROWS] iterations *)

Section ray_fuel.
Variables (b : Board) (r c : Z) (color : Color) (dr dc : Z).
Variable mu : Z → Z → nat.
Hypothesis mu_decreases :
  ∀ nr nc, in_bounds nr nc = true → (mu (nr + dr) (nc + dc) < mu nr nc)%nat.

Lemma ray_fuel_enough f1 f2 nr nc :
  (mu nr nc ≤ f1)%nat → (mu nr nc ≤ f2)%nat →
  ray f1 b r c color nr nc dr dc = ray f2 b r c color nr nc dr dc.
Proof.
  revert f2 nr nc. induction f1 as [|f1 IH]; intros f2 nr nc H1 H2.
  - destruct (in_bounds nr nc) eqn:Hin.
    + pose proof (mu_decreases nr nc Hin). lia.
    + destruct f2; simpl; by rewrite ?Hin.
  - destruct f2 as [|f2]; simpl.
    + destruct (in_bounds nr nc) eqn:Hin; [|done].
      pose proof (mu_decreases nr nc Hin). lia.
    + destruct (in_bounds nr nc) eqn:Hin; [|done].
      destruct (get b nr nc); [done|]. f_equal.
      pose proof (mu_decreases nr nc Hin). apply IH; lia.
Qed.
End ray_fuel.

Lemma ray_out_of_bounds fuel b r c color nr nc dr dc :
  in_bounds nr nc = false → ray fuel b r c color nr nc dr dc = [].
Proof. intros Hin. destruct fuel; simpl; by rewrite ?Hin. Qed.

(** Past [ROWS] iterations more fuel changes nothing: the loop has ended. *)
Lemma ray_fuel_stable b r c color nr nc dr dc fuel :
  dr ≠ 0 ∨ dc ≠ 0 → (Z.to_nat ROWS ≤ fuel)%nat →
  ray fuel b r c color nr nc dr dc
  = ray (Z.to_nat ROWS) b r c color nr nc dr dc.
Proof.
  intros Hd Hfuel. unfold ROWS in *.
  destruct (in_bounds nr nc) eqn:Hin; [|by rewrite !ray_out_of_bounds].
  pose proof Hin as [Hr Hc]%in_bounds_true.
  destruct (Z.lt_trichotomy dr 0) as [Hdr|[Hdr|Hdr]].
  - apply (ray_fuel_enough _ _ _ _ _ _ (λ nr _, Z.to_nat (nr + 1))); [|lia..].
    intros x y [Hx Hy]%in_bounds_true. lia.
  - destruct (Z.lt_trichotomy dc 0) as [Hdc|[Hdc|Hdc]]; [|lia|].
    + apply (ray_fuel_enough _ _ _ _ _ _ (λ _ nc, Z.to_nat (nc + 1))); [|lia..].
      intros x y [Hx Hy]%in_bounds_true. lia.
    + apply (ray_fuel_enough _ _ _ _ _ _ (λ _ nc, Z.to_nat (8 - nc))); [|lia..].
      intros x y [Hx Hy]%in_bounds_true. lia.
  - apply (ray_fuel_enough _ _ _ _ _ _ (λ nr _, Z.to_nat (8 - nr))); [|lia..].
    intros x y [Hx Hy]%in_bounds_true. lia.
Qed.

Lemma sliding_moves_fuel_stable b r c piece directions fuel :
  Forall (λ d : Z * Z, d.1 ≠ 0 ∨ d.2 ≠ 0) directions →
  (Z.to_nat ROWS ≤ fuel)%nat →
  sliding_moves_fuel fuel b r c piece directions
  = sliding_moves b r c piece directions.
Proof.
  intros Hdirs Hfuel. unfold sliding_moves, sliding_moves_fuel.
  induction Hdirs as [|d directions Hd _ IH]; [done|].
  rewrite !bind_cons, IH. f_equal. by apply ray_fuel_stable.
Qed.

(** The direction sets of the bishop, the rook and the queen have no
    [(0, 0)]. *)
Lemma directions_nonzero :
  Forall (λ d : Z * Z, d.1 ≠ 0 ∨ d.2 ≠ 0)
    (bishop_directions ++ rook_directions ++ queen_directions).
Proof. repeat constructor; simpl; lia. Qed.

(** *** Every generated move is well formed *)

Lemma pawn_moves_ok b r c piece m :
  m ∈ pawn_moves b r c piece → move_ok b piece.1 r c m.
Proof.
  unfold pawn_moves, move_ok. intros [Hm|Hm]%elem_of_app.
  - destruct (in_bounds _ _ && is_empty _) eqn:H1; [|by apply elem_of_nil in Hm].
    apply andb_true_iff in H1 as [Hin He].
    apply elem_of_cons in Hm as [->|Hm]; simpl; [by rewrite Hin, He|].
    destruct (_ && _ && is_empty _) eqn:H2; [|by apply elem_of_nil in Hm].
    apply andb_true_iff in H2 as [[_ Hin2]%andb_true_iff He2].
    apply list_elem_of_singleton in Hm as ->. simpl. by rewrite Hin2, He2.
  - apply list_elem_of_bind in Hm as (d & Hm & _).
    destruct (in_bounds _ _ && is_enemy _ _) eqn:H1; [|by apply elem_of_nil in Hm].
    apply andb_true_iff in H1 as [Hin He].
    apply list_elem_of_singleton in Hm as ->. simpl.
    rewrite Hin, He. by rewrite orb_true_r.
Qed.

Lemma step_move_ok b r c color d m :
  m ∈ step_move b r c color d → move_ok b color r c m.
Proof.
  unfold step_move, move_ok. intros Hm.
  destruct (in_bounds _ _) eqn:Hin; simpl in Hm; [|by apply elem_of_nil in Hm].
  destruct (is_empty _ || is_enemy _ _) eqn:He; [|by apply elem_of_nil in Hm].
  apply list_elem_of_singleton in Hm as ->. simpl. by rewrite Hin, He.
Qed.

Lemma ray_ok fuel b r c color nr nc dr dc m :
  m ∈ ray fuel b r c color nr nc dr dc → move_ok b color r c m.
Proof.
  revert nr nc. induction fuel as [|fuel IH]; intros nr nc Hm; simpl in Hm.
  { by apply elem_of_nil in Hm. }
  destruct (in_bounds nr nc) eqn:Hin; [|by apply elem_of_nil in Hm].
  destruct (get b nr nc) as [[pcolor ptype]|] eqn:Hget.
  - simpl in Hm.
    destruct (bool_decide (pcolor ≠ color)) eqn:He; [|by apply elem_of_nil in Hm].
    apply list_elem_of_singleton in Hm as ->. unfold move_ok. simpl.
    rewrite Hin, Hget. simpl. by rewrite He.
  - apply elem_of_cons in Hm as [->|Hm]; [|by eapply IH].
    unfold move_ok. simpl. by rewrite Hin, Hget.
Qed.

Lemma sliding_moves_ok b r c piece directions m :
  m ∈ sliding_moves b r c piece directions → move_ok b piece.1 r c m.
Proof.
  unfold sliding_moves, sliding_moves_fuel.
  intros (d & Hm & _)%list_elem_of_bind. by eapply ray_ok.
Qed.

Lemma piece_moves_ok b r c piece m :
  m ∈ piece_moves b r c piece → move_ok b piece.1 r c m.
Proof.
  unfold piece_moves, knight_moves, king_moves.
  destruct piece.2; intros Hm;
    first [ by apply pawn_moves_ok
          | by eapply sliding_moves_ok
          | apply list_elem_of_bind in Hm as (d & Hm & _); by eapply step_move_ok ].
Qed.

(** A generated move comes from the piece of the side to move that stands
    on its source square. *)
Lemma generate_legal_moves_inv b color m :
  m ∈ generate_legal_moves b color →
  ∃ ptype, in_bounds m.1.1 m.1.2 = true ∧
    get b m.1.1 m.1.2 = Some (color, ptype) ∧
    m ∈ piece_moves b m.1.1 m.1.2 (color, ptype).
Proof.
  unfold generate_legal_moves. intros ([r c] & Hm & Hsq)%list_elem_of_bind.
  simpl in Hm. apply squares_in_bounds in Hsq.
  destruct (get b r c) as [[pcolor ptype]|] eqn:Hget; [|by apply elem_of_nil in Hm].
  case_decide as Hc; [|by apply elem_of_nil in Hm]. simpl in Hc. subst pcolor.
  destruct (piece_moves_ok _ _ _ _ _ Hm) as (-> & _). simpl. eauto.
Qed.

(** C9. Every move of [generate_legal_moves b color] leaves an in-range
    square holding a piece of [color] for an in-range square that is empty
    or holds a piece of the other colour. *)
Theorem generated_moves_well_formed (b : Board) (color : Color) (m : Move) :
  m ∈ generate_legal_moves b color →
  in_bounds m.1.1 m.1.2 = true ∧
  (∃ ptype, get b m.1.1 m.1.2 = Some (color, ptype)) ∧
  in_bounds m.2.1 m.2.2 = true ∧
  (get b m.2.1 m.2.2 = None ∨
   ∃ ocolor optype, get b m.2.1 m.2.2 = Some (ocolor, optype) ∧ ocolor ≠ color).
Proof.
  intros (ptype & Hsrc & Hget & Hm)%generate_legal_moves_inv.
  destruct (piece_moves_ok _ _ _ _ _ Hm) as (_ & Hdst & Hocc). simpl in Hocc.
  split; [done|]. split; [by eauto|]. split; [done|].
  destruct (get b m.2.1 m.2.2) as [[ocolor optype]|]; [right|by left].
  simpl in Hocc. apply bool_decide_eq_true in Hocc. by eauto.
Qed.

Lemma generated_moves_well_formed_witness :
  ((6, 0), (5, 0)) ∈ generate_legal_moves Board_init White ∧
  in_bounds 6 0 = true ∧
  (∃ ptype, get Board_init 6 0 = Some (White, ptype)) ∧
  in_bounds 5 0 = true ∧
  (get Board_init 5 0 = None ∨
   ∃ ocolor optype, get Board_init 5 0 = Some (ocolor, optype) ∧ ocolor ≠ White).
Proof.
  assert (((6, 0), (5, 0)) ∈ generate_legal_moves Board_init White) as Hm
    by (apply (bool_decide_unpack _); vm_compute; reflexivity).
  split; [exact Hm|].
  exact (generated_moves_well_formed Board_init White ((6, 0), (5, 0)) Hm).
Defined.

(** *** Selecting the moves of one square *)

Lemma filter_none {A} (P : A → Prop) `{!∀ x, Decision (P x)} (l : list A) :
  (∀ x, x ∈ l → ¬ P x) → filter P l = [].
Proof.
  intros Hl. apply elem_of_nil_inv. intros x [HP Hx]%list_elem_of_filter.
  by apply (Hl x).
Qed.

Lemma filter_bind_none {A B} (P : B → Prop) `{!∀ x, Decision (P x)}
    (f : A → list B) (l : list A) :
  (∀ y, y ∈ l → filter P (f y) = []) → filter P (l ≫= f) = [].
Proof.
  induction l as [|y l IH]; intros Hl; [done|].
  rewrite bind_cons, filter_app, Hl by apply list_elem_of_here.
  apply IH. intros z Hz. apply Hl. by apply list_elem_of_further.
Qed.

Lemma filter_bind_unique {A B} (P : B → Prop) `{!∀ x, Decision (P x)}
    (f : A → list B) (l : list A) (x : A) :
  NoDup l → x ∈ l → (∀ y, y ≠ x → filter P (f y) = []) →
  filter P (l ≫= f) = filter P (f x).
Proof.
  induction 1 as [|y l Hy Hnd IH]; intros Hx Hf.
  { by apply elem_of_nil in Hx. }
  rewrite bind_cons, filter_app. apply elem_of_cons in Hx as [->|Hx].
  - rewrite (filter_bind_none P f l), app_nil_r; [done|].
    intros z Hz. apply Hf. by intros ->.
  - rewrite Hf by (by intros ->). by apply IH.
Qed.

(** The forward moves among the generated ones are those of the piece
    standing on the square. *)
Lemma forward_moves_generate b color r c ptype :
  get b r c = Some (color, ptype) →
  forward_moves (generate_legal_moves b color) r c
  = forward_moves (piece_moves b r c (color, ptype)) r c.
Proof.
  intros Hget. unfold forward_moves, generate_legal_moves.
  rewrite (filter_bind_unique _ _ squares (r, c)).
  - simpl. rewrite Hget. simpl. by rewrite decide_True.
  - apply squares_NoDup.
  - apply squares_in_bounds. by eapply get_in_bounds.
  - intros [r' c'] Hne. simpl. apply filter_none. intros m Hm [Hsrc _].
    destruct (get b r' c') as [piece|]; [|by apply elem_of_nil in Hm].
    case_decide; [|by apply elem_of_nil in Hm].
    destruct (piece_moves_ok _ _ _ _ _ Hm) as (Hsrc' & _). congruence.
Qed.

Lemma start_row_ahead color c :
  (0 ≤ c < 8) →
  in_bounds (start_row color + dir_forward color) c = true ∧
  in_bounds (start_row color + dir_forward color + dir_forward color) c = true.
Proof. intros Hc. rewrite !in_bounds_true. destruct color; simpl; lia. Qed.

Lemma pawn_forward_moves b color r c :
  in_bounds r c = true → r = start_row color →
  let d := dir_forward color in
  forward_moves (pawn_moves b r c (color, Pawn)) r c
  = if is_empty (get b (r + d) c)
    then ((r, c), (r + d, c)) ::
         (if is_empty (get b (r + d + d) c) then [((r, c), (r + d + d, c))] else [])
    else [].
Proof.
  intros [Hr Hc]%in_bounds_true -> d.
  destruct (start_row_ahead color c Hc) as [Hin1 Hin2].
  unfold forward_moves, pawn_moves. cbn [fst snd]. fold d in Hin1, Hin2 |- *.
  rewrite filter_app, Hin1, Hin2, Z.eqb_refl. cbn [andb].
  rewrite (filter_none _ (_ ≫= _)), app_nil_r.
  - destruct (is_empty (get b (start_row color + d) c)); [|done].
    rewrite filter_cons_True by done. f_equal.
    destruct (is_empty (get b (start_row color + d + d) c)); [|done].
    by rewrite filter_cons_True.
  - intros m (dc & Hm & Hdc)%list_elem_of_bind [_ Hfile].
    destruct (_ && _); [|by apply elem_of_nil in Hm].
    apply list_elem_of_singleton in Hm as ->. simpl in Hfile.
    apply elem_of_cons in Hdc as [->|Hdc]; [lia|].
    apply list_elem_of_singleton in Hdc as ->. lia.
Qed.

(** C6. For a pawn on the starting rank of its colour: with the two
    squares ahead empty the generator emits exactly the one-step and the
    two-step forward moves; with the square ahead occupied, by either
    colour, it emits no forward move, whatever the second square holds. *)
Theorem pawn_forward_from_start (b : Board) (color : Color) (r c : Z) :
  get b r c = Some (color, Pawn) →
  r = start_row color →
  let d := dir_forward color in
  let fwd := forward_moves (generate_legal_moves b color) r c in
  (get b (r + d) c = None → get b (r + 2 * d) c = None →
   fwd = [((r, c), (r + d, c)); ((r, c), (r + 2 * d, c))] ∧ length fwd = 2%nat) ∧
  (get b (r + d) c ≠ None → fwd = [] ∧ length fwd = 0%nat).
Proof.
  intros Hget Hr d fwd.
  assert (fwd = if is_empty (get b (r + d) c)
    then ((r, c), (r + d, c)) ::
         (if is_empty (get b (r + d + d) c) then [((r, c), (r + d + d, c))] else [])
    else []) as ->.
  { unfold fwd. rewrite (forward_moves_generate _ _ _ _ _ Hget).
    apply pawn_forward_moves; [by eapply get_in_bounds|done]. }
  replace (r + d + d) with (r + 2 * d) by lia. split.
  - intros -> ->. done.
  - intros Hocc. by destruct (get b (r + d) c).
Qed.

Lemma pawn_forward_from_start_witness :
  get Board_init 6 4 = Some (White, Pawn) ∧ 6 = start_row White ∧
  let fwd := forward_moves (generate_legal_moves Board_init White) 6 4 in
  (get Board_init (6 + -1) 4 = None → get Board_init (6 + 2 * -1) 4 = None →
   fwd = [((6, 4), (6 + -1, 4)); ((6, 4), (6 + 2 * -1, 4))] ∧ length fwd = 2%nat) ∧
  (get Board_init (6 + -1) 4 ≠ None → fwd = [] ∧ length fwd = 0%nat).
Proof.
  split; [reflexivity|]. split; [reflexivity|].
  exact (pawn_forward_from_start Board_init White 6 4 eq_refl eq_refl).
Defined.

(** *** Boards are determined by what [get] returns *)

Lemma board_ext b1 b2 :
  wf_board b1 → wf_board b2 →
  (∀ r c, in_bounds r c = true → get b1 r c = get b2 r c) → b1 = b2.
Proof.
  intros [Hlen1 Hrows1] [Hlen2 Hrows2] Hget.
  destruct b1 as [g1], b2 as [g2]. simpl in *. f_equal.
  apply list_eq. intros i.
  destruct (decide (i < 8)%nat) as [Hi|Hi];
    [|by rewrite !(proj2 (lookup_ge_None _ _)) by lia].
  destruct (lookup_lt_is_Some_2 g1 i) as [row1 Hrow1]; [lia|].
  destruct (lookup_lt_is_Some_2 g2 i) as [row2 Hrow2]; [lia|].
  rewrite Hrow1, Hrow2. f_equal.
  pose proof (Forall_lookup_1 _ _ _ _ Hrows1 Hrow1) as Hl1.
  pose proof (Forall_lookup_1 _ _ _ _ Hrows2 Hrow2) as Hl2. simpl in Hl1, Hl2.
  apply list_eq. intros j.
  destruct (decide (j < 8)%nat) as [Hj|Hj];
    [|by rewrite !(proj2 (lookup_ge_None _ _)) by lia].
  destruct (lookup_lt_is_Some_2 row1 j) as [x1 Hx1]; [lia|].
  destruct (lookup_lt_is_Some_2 row2 j) as [x2 Hx2]; [lia|].
  specialize (Hget (Z.of_nat i) (Z.of_nat j)).
  unfold get, cell_at in Hget. simpl in Hget.
  rewrite !Nat2Z.id, Hrow1, Hrow2, Hx1, Hx2 in Hget.
  assert (in_bounds (Z.of_nat i) (Z.of_nat j) = true) as Hin
    by (apply in_bounds_true; lia).
  rewrite Hin in Hget. rewrite Hx1, Hx2. f_equal. by apply Hget.
Qed.

Lemma lone_rook_wf color : wf_board (lone_rook color).
Proof. apply set_wf. split; [done|]. vm_compute. repeat constructor. Qed.

Lemma lone_rook_get color r c :
  in_bounds r c = true →
  get (lone_rook color) r c
  = if decide ((r, c) = (3, 3)) then Some (color, Rook) else None.
Proof.
  intros Hin. case_decide as Heq.
  - simplify_eq. done.
  - unfold lone_rook. rewrite get_set_ne by congruence.
    unfold get, cell_at, empty_board. rewrite Hin. cbn [grid].
    apply in_bounds_true in Hin as [Hr Hc].
    rewrite lookup_replicate_2 by (unfold ROWS; lia).
    rewrite lookup_replicate_2 by (unfold COLS; lia). done.
Qed.

(** C5. On a board that is empty except for one rook on (3, 3), of either
    colour, the generator returns exactly 14 moves for the rook's side; all
    of them leave (3, 3) and their destinations are exactly the 14 other
    squares of rank 3 and of file 3. *)
Theorem lone_rook_moves (b : Board) (color : Color) :
  wf_board b →
  (∀ r c, in_bounds r c = true →
     get b r c = if decide ((r, c) = (3, 3)) then Some (color, Rook) else None) →
  let moves := generate_legal_moves b color in
  length moves = 14%nat ∧ NoDup moves ∧
  (∀ m, m ∈ moves → m.1 = (3, 3)) ∧
  (∀ r c, ((3, 3), (r, c)) ∈ moves ↔
          in_bounds r c = true ∧ (r, c) ≠ (3, 3) ∧ (r = 3 ∨ c = 3)).
Proof.
  intros Hwf Hlone moves.
  assert (b = lone_rook color) as Hb.
  { apply board_ext; [done|apply lone_rook_wf|].
    intros r c Hin. by rewrite Hlone, lone_rook_get. }
  assert (moves =
    [((3, 3), (2, 3)); ((3, 3), (1, 3)); ((3, 3), (0, 3)); ((3, 3), (4, 3));
     ((3, 3), (5, 3)); ((3, 3), (6, 3)); ((3, 3), (7, 3)); ((3, 3), (3, 2));
     ((3, 3), (3, 1)); ((3, 3), (3, 0)); ((3, 3), (3, 4)); ((3, 3), (3, 5));
     ((3, 3), (3, 6)); ((3, 3), (3, 7))]) as ->.
  { unfold moves. rewrite Hb. by destruct color; vm_compute. }
  split; [done|]. split; [apply (bool_decide_unpack _); by vm_compute|].
  split.
  - intros m Hm. repeat (apply elem_of_cons in Hm as [->|Hm]; [done|]).
    by apply elem_of_nil in Hm.
  - intros r c. rewrite in_bounds_true. split.
    + intros Hm.
      repeat (apply elem_of_cons in Hm as [[= -> ->]|Hm];
              [split; [lia|split; [congruence|lia]]|]).
      by apply elem_of_nil in Hm.
    + intros ([Hr Hc] & Hne & [->| ->]).
      * assert (c = 0 ∨ c = 1 ∨ c = 2 ∨ c = 4 ∨ c = 5 ∨ c = 6 ∨ c = 7) as Hcases
          by (destruct (decide (c = 3)); [congruence|lia]).
        destruct_or!; subst c; apply (bool_decide_unpack _); by vm_compute.
      * assert (r = 0 ∨ r = 1 ∨ r = 2 ∨ r = 4 ∨ r = 5 ∨ r = 6 ∨ r = 7) as Hcases
          by (destruct (decide (r = 3)); [congruence|lia]).
        destruct_or!; subst r; apply (bool_decide_unpack _); by vm_compute.
Qed.

Lemma lone_rook_moves_witness :
  wf_board (lone_rook White) ∧
  (∀ r c, in_bounds r c = true →
     get (lone_rook White) r c
     = if decide ((r, c) = (3, 3)) then Some (White, Rook) else None) ∧
  let moves := generate_legal_moves (lone_rook White) White in
  length moves = 14%nat ∧ NoDup moves ∧
  (∀ m, m ∈ moves → m.1 = (3, 3)) ∧
  (∀ r c, ((3, 3), (r, c)) ∈ moves ↔
          in_bounds r c = true ∧ (r, c) ≠ (3, 3) ∧ (r = 3 ∨ c = 3)).
Proof.
  assert (wf_board (lone_rook White)) as Hwf
    by (split; [reflexivity|vm_compute; repeat constructor]).
  split; [exact Hwf|]. split; [exact (lone_rook_get White)|].
  exact (lone_rook_moves (lone_rook White) White Hwf (lone_rook_get White)).
Defined.

(** ** The move chooser *)

Lemma best_step_nonempty b color st move :
  (is_Some st.1 → st.2 ≠ []) →
  is_Some (best_step b color st move).1 ∧ (best_step b color st move).2 ≠ [].
Proof.
  destruct st as [[best|] bests]; simpl; intros Hst; [|by eauto].
  destruct (_ ?= _)%Q; simpl; split; eauto.
  intros Heq. by apply app_eq_nil in Heq as [_ ?].
Qed.

Lemma best_fold_nonempty b color moves st :
  is_Some st.1 → st.2 ≠ [] →
  (foldl (best_step b color) st moves).2 ≠ [].
Proof.
  revert st. induction moves as [|move moves IH]; intros st H1 H2; simpl; [done|].
  destruct (best_step_nonempty b color st move) as [H1' H2']; [done|]. by apply IH.
Qed.

Lemma best_moves_nonempty b color moves :
  moves ≠ [] → best_moves b color moves ≠ [].
Proof.
  unfold best_moves. destruct moves as [|move moves]; [done|]. intros _. simpl.
  by apply best_fold_nonempty; simpl.
Qed.

Lemma best_step_subset b color st move m :
  m ∈ (best_step b color st move).2 → m ∈ st.2 ∨ m = move.
Proof.
  destruct st as [[best|] bests]; simpl.
  - destruct (_ ?= _)%Q; simpl; rewrite ?elem_of_app, ?list_elem_of_singleton; tauto.
  - rewrite list_elem_of_singleton. tauto.
Qed.

Lemma best_fold_subset b color moves st m :
  m ∈ (foldl (best_step b color) st moves).2 → m ∈ st.2 ∨ m ∈ moves.
Proof.
  revert st. induction moves as [|move moves IH]; intros st Hm; simpl in *; [by left|].
  rewrite elem_of_cons.
  destruct (IH _ Hm) as [Hst|?]; [|by eauto].
  destruct (best_step_subset _ _ _ _ _ Hst); by eauto.
Qed.

Lemma best_moves_subset b color moves m :
  m ∈ best_moves b color moves → m ∈ moves.
Proof.
  intros [Hm|Hm]%best_fold_subset; [by apply elem_of_nil in Hm|done].
Qed.

Lemma capture_step_subset b st mv m :
  m ∈ (capture_step b st mv).1 → m ∈ st.1 ∨ m = mv.
Proof.
  destruct st as [caps val]. unfold capture_step.
  destruct (get b _ _) as [[? ptype]|]; [|by left].
  repeat case_match; simpl;
    rewrite ?elem_of_app, ?list_elem_of_singleton; tauto.
Qed.

Lemma capture_fold_subset b bests st m :
  m ∈ (foldl (capture_step b) st bests).1 → m ∈ st.1 ∨ m ∈ bests.
Proof.
  revert st. induction bests as [|mv bests IH]; intros st Hm; simpl in *; [by left|].
  rewrite elem_of_cons.
  destruct (IH _ Hm) as [Hst|?]; [|by eauto].
  destruct (capture_step_subset _ _ _ _ Hst); by eauto.
Qed.

Lemma capture_best_subset b bests m :
  m ∈ capture_best b bests → m ∈ bests.
Proof.
  intros [Hm|Hm]%capture_fold_subset; [by apply elem_of_nil in Hm|done].
Qed.

Lemma final_candidates_subset b color m :
  m ∈ final_candidates b color → m ∈ generate_legal_moves b color.
Proof.
  unfold final_candidates. intros Hm. apply (best_moves_subset b color).
  destruct (capture_best _ _) eqn:Hcaps; [done|].
  apply (capture_best_subset b). by rewrite Hcaps.
Qed.

Lemma final_candidates_nonempty b color :
  generate_legal_moves b color ≠ [] → final_candidates b color ≠ [].
Proof.
  intros Hmoves. unfold final_candidates.
  destruct (capture_best _ _) eqn:Hcaps; [|done].
  by apply best_moves_nonempty.
Qed.

Lemma random_choice_elem {A} rnd (l : list A) x :
  random_choice rnd l = Returned x → x ∈ l.
Proof.
  unfold random_choice. destruct (l !! _) as [y|] eqn:Hy; [|done].
  intros [= ->]. by eapply list_elem_of_lookup_2.
Qed.

Lemma random_choice_returns {A} rnd (l : list A) :
  l ≠ [] → ∃ x, random_choice rnd l = Returned x.
Proof.
  intros Hl. unfold random_choice.
  destruct (lookup_lt_is_Some_2 l (rnd mod length l)%nat) as [x ->]; [|by eauto].
  apply Nat.mod_upper_bound. by destruct l.
Qed.

(** Every element of the sequence is the result of some draw. *)
Lemma random_choice_any {A} (l : list A) x :
  x ∈ l → ∃ rnd, random_choice rnd l = Returned x.
Proof.
  intros (i & Hi)%list_elem_of_lookup_1. exists i. unfold random_choice.
  rewrite Nat.mod_small by (by eapply lookup_lt_Some). by rewrite Hi.
Qed.

(** C2. Whatever the random draw, [choose_move] does not raise, returns no
    move exactly when the generator yields none for the board and side, and
    any move it returns is one of the generated moves. *)
Theorem choose_move_sound (rnd : nat) (b : Board) (color : Color) :
  (choose_move rnd b color = Returned None ↔ generate_legal_moves b color = []) ∧
  (∀ m, choose_move rnd b color = Returned (Some m) →
        m ∈ generate_legal_moves b color) ∧
  choose_move rnd b color ≠ Raised.
Proof.
  pose proof (final_candidates_nonempty b color) as Hne.
  pose proof (final_candidates_subset b color) as Hsub.
  unfold choose_move.
  destruct (generate_legal_moves b color) as [|m0 moves] eqn:Hmoves.
  { split; [done|]. split; [by intros m [=]|done]. }
  destruct (random_choice_returns rnd (final_candidates b color)) as [x Hx];
    [by apply Hne|].
  rewrite Hx. split; [split; intros [=]|]. split; [|done].
  intros m [= <-]. apply Hsub. by eapply random_choice_elem.
Qed.

(** ** The object store: instances, their contents and their objects *)

Section store.
Implicit Types (h : gmap nat Store.obj) (b g l : nat) (rs : list nat) (bd : Board).

Lemma repr_wf h b g rs bd : Store.repr h b g rs bd → Store.wf h b.
Proof.
  intros (Hb & Hg & Hnd & Hlen & Hrows).
  unfold Store.wf, Store.grid_ref, Store.rows_of.
  rewrite Hb, Hg. split; [done|]. split; [done|].
  apply (Forall2_Forall_l _ _ _ _ Hrows). apply Forall_true.
  intros l cs [Hl Hcs]. unfold Store.cells_of. by rewrite Hl.
Qed.

Lemma wf_repr h b : Store.wf h b → ∃ g rs bd, Store.repr h b g rs bd.
Proof.
  unfold Store.wf, Store.grid_ref, Store.rows_of.
  destruct (h !! b) as [[| |g]|] eqn:Hb; try done.
  destruct (h !! g) as [[|rs|]|] eqn:Hg; try done.
  intros (Hnd & Hlen & Hrows).
  assert (∃ rows,
    Forall2 (λ l cs, h !! l = Some (Store.ORow cs) ∧ length cs = 8%nat) rs rows)
    as [rows Hrows'].
  { clear Hnd Hlen Hg. induction Hrows as [|l rs Hl _ [rows IH]]; [by exists []|].
    unfold Store.cells_of in Hl. destruct (h !! l) as [[cs| |]|] eqn:Hhl; try done.
    exists (cs :: rows). by constructor. }
  by exists g, rs, (mkBoard rows).
Qed.

Lemma repr_contents h b g rs bd :
  Store.repr h b g rs bd → Store.contents h b = Some bd.
Proof.
  intros (Hb & Hg & _ & _ & Hrows).
  unfold Store.contents, Store.grid_ref, Store.rows_of.
  rewrite Hb. simpl. rewrite Hg. simpl.
  rewrite (mapM_Some_2 (Store.cells_of h) rs (grid bd)); [by destruct bd|].
  eapply Forall2_impl; [done|]. intros l cs [Hl _].
  unfold Store.cells_of. by rewrite Hl.
Qed.

Lemma repr_wf_board h b g rs bd : Store.repr h b g rs bd → wf_board bd.
Proof.
  intros (_ & _ & _ & Hlen & Hrows). split.
  - by rewrite <- (Forall2_length _ _ _ Hrows).
  - apply (Forall2_Forall_r _ _ _ _ Hrows). apply Forall_true. by intros l cs [_ ?].
Qed.

Lemma repr_dom h b g rs bd :
  Store.repr h b g rs bd → Store.objects b g rs ⊆ dom h.
Proof.
  intros (Hb & Hg & _ & _ & Hrows) l. unfold Store.objects.
  rewrite !elem_of_union, !elem_of_singleton, elem_of_list_to_set.
  intros [[->| ->]|Hl]; [by eapply elem_of_dom_2..|].
  apply list_elem_of_lookup_1 in Hl as [i Hi].
  destruct (Forall2_lookup_l _ _ _ _ _ Hrows Hi) as (cs & _ & Hl & _).
  by eapply elem_of_dom_2.
Qed.

(** A store that agrees with [h] on the objects of an instance holds the
    same instance. *)
Lemma repr_agree h h' b g rs bd :
  Store.repr h b g rs bd → (∀ l, l ∈ Store.objects b g rs → h' !! l = h !! l) →
  Store.repr h' b g rs bd.
Proof.
  intros (Hb & Hg & Hnd & Hlen & Hrows) Hsame. unfold Store.objects in Hsame.
  split; [rewrite Hsame; [done|set_solver]|].
  split; [rewrite Hsame; [done|set_solver]|].
  split; [done|]. split; [done|].
  apply Forall2_same_length_lookup. split; [by eapply Forall2_length|].
  intros i l cs Hl Hcs. rewrite Hsame.
  - by apply (Forall2_lookup_lr _ _ _ _ _ _ Hrows Hl Hcs).
  - apply list_elem_of_lookup_2 in Hl. set_solver.
Qed.

Lemma repr_cell_at h b g rs bd r c :
  Store.repr h b g rs bd → in_bounds r c = true →
  Store.cell_at h b r c = Some (cell_at bd r c).
Proof.
  intros (Hb & Hg & Hnd & Hlen & Hrows) [Hr Hc]%in_bounds_true.
  unfold Store.cell_at, cell_at, Store.row_ref, Store.grid_ref, Store.rows_of,
    Store.cells_of.
  rewrite Hb. simpl. rewrite Hg. simpl.
  destruct (lookup_lt_is_Some_2 rs (Z.to_nat r)) as [l Hl]; [lia|].
  destruct (Forall2_lookup_l _ _ _ _ _ Hrows Hl) as (cs & Hcs & Hhl & Hlen').
  rewrite Hl. simpl. rewrite Hhl, Hcs. simpl.
  destruct (lookup_lt_is_Some_2 cs (Z.to_nat c)) as [x Hx]; [lia|]. by rewrite Hx.
Qed.

Lemma repr_get h b g rs bd r c :
  Store.repr h b g rs bd → Store.get h b r c = Some (get bd r c).
Proof.
  intros Hrepr. unfold Store.get, get.
  destruct (in_bounds r c) eqn:Hin; [|done]. by eapply repr_cell_at.
Qed.

Lemma repr_score_loop h b g rs bd color sqs score :
  Store.repr h b g rs bd → Forall (λ sq, in_bounds sq.1 sq.2 = true) sqs →
  Store.score_loop h b color sqs score
  = Some (foldl (material_step bd color) score sqs).
Proof.
  intros Hrepr Hsqs. revert score.
  induction Hsqs as [|sq sqs Hsq _ IH]; intros score; simpl; [done|].
  rewrite (repr_cell_at _ _ _ _ _ _ _ Hrepr Hsq). simpl. apply IH.
Qed.

Lemma repr_material_score h b g rs bd color :
  Store.repr h b g rs bd →
  Store.material_score h b color = Some (material_score bd color).
Proof.
  intros Hrepr. unfold Store.material_score, material_score.
  eapply repr_score_loop; [done|]. apply Forall_forall.
  intros [r c]. apply squares_in_bounds.
Qed.

(** *** Mutators: what they write and what they leave alone *)

Lemma updates_refl h b g rs : Store.updates h b g rs h rs.
Proof. unfold Store.updates. set_solver. Qed.

Lemma updates_trans h b g rs h1 rs1 h2 rs2 :
  Store.updates h b g rs h1 rs1 → Store.updates h1 b g rs1 h2 rs2 →
  Store.updates h b g rs h2 rs2.
Proof.
  intros (Hf1 & Hs1 & Hd1) (Hf2 & Hs2 & Hd2). split; [|split].
  - intros l Hl Hout. rewrite Hf2; [by apply Hf1| set_solver | set_solver].
  - set_solver.
  - set_solver.
Qed.

Lemma NoDup_insert_fresh (rs : list nat) i l :
  NoDup rs → l ∉ rs → NoDup (<[i := l]> rs).
Proof.
  intros Hnd Hl. apply NoDup_alt. intros j k x Hj Hk.
  apply list_lookup_insert_Some in Hj as [(-> & -> & _)|(Hij & Hj)];
    apply list_lookup_insert_Some in Hk as [(Hk1 & Hk2 & _)|(Hik & Hk)].
  - done.
  - exfalso. apply Hl. by eapply list_elem_of_lookup_2.
  - subst. exfalso. apply Hl. by eapply list_elem_of_lookup_2.
  - by eapply NoDup_lookup.
Qed.

Lemma elem_of_insert_inv (rs : list nat) i l x :
  x ∈ <[i := l]> rs → x = l ∨ x ∈ rs.
Proof.
  intros (j & Hj)%list_elem_of_lookup_1.
  apply list_lookup_insert_Some in Hj as [(_ & -> & _)|(_ & Hj)]; [by left|].
  right. by eapply list_elem_of_lookup_2.
Qed.

Lemma set_repr h b g rs bd r c piece :
  Store.repr h b g rs bd →
  ∃ h', Store.set h b r c piece = Some h' ∧
        Store.repr h' b g rs (set bd r c piece) ∧
        Store.updates h b g rs h' rs.
Proof.
  intros Hrepr. pose proof Hrepr as (Hb & Hg & Hnd & Hlen & Hrows).
  unfold Store.set, set. destruct (in_bounds r c) eqn:Hin.
  2: { exists h. split; [done|]. split; [done|apply updates_refl]. }
  apply in_bounds_true in Hin as [Hr Hc].
  unfold Store.row_ref, Store.grid_ref, Store.rows_of, Store.cells_of.
  rewrite Hb. simpl. rewrite Hg. simpl.
  destruct (lookup_lt_is_Some_2 rs (Z.to_nat r)) as [l Hl]; [lia|].
  destruct (Forall2_lookup_l _ _ _ _ _ Hrows Hl) as (cs & Hcs & Hhl & Hlen').
  rewrite Hl. simpl. rewrite Hhl. simpl.
  destruct (lookup_lt_is_Some_2 cs (Z.to_nat c)) as [x Hx]; [lia|].
  rewrite Hx. simpl. eexists. split; [done|].
  assert (l ≠ b) as Hlb by (intros ->; congruence).
  assert (l ≠ g) as Hlg by (intros ->; congruence).
  split.
  - split; [by rewrite lookup_insert_ne|]. split; [by rewrite lookup_insert_ne|].
    split; [done|]. split; [done|]. simpl.
    apply Forall2_same_length_lookup.
    split; [rewrite length_alter; by eapply Forall2_length|].
    intros i l' cs' Hl' Hcs'. destruct (decide (i = Z.to_nat r)) as [->|Hne].
    + rewrite list_lookup_alter_eq, Hcs in Hcs'. simplify_eq/=.
      rewrite lookup_insert_eq. by rewrite length_insert.
    + rewrite list_lookup_alter_ne in Hcs' by done.
      assert (l' ≠ l) as Hll.
      { intros ->. apply Hne. by eapply NoDup_lookup. }
      rewrite lookup_insert_ne by done.
      by apply (Forall2_lookup_lr _ _ _ _ _ _ Hrows Hl' Hcs').
  - split; [|split].
    + intros l' _ Hout. rewrite lookup_insert_ne; [done|]. intros ->.
      apply Hout. apply list_elem_of_lookup_2 in Hl. unfold Store.objects. set_solver.
    + set_solver.
    + rewrite dom_insert_L. set_solver.
Qed.

Lemma assign_row_repr h b g rs bd r row :
  Store.repr h b g rs bd → (r < 8)%nat → length row = 8%nat →
  ∃ h' rs', Store.assign_row h b r row = Some h' ∧
            Store.repr h' b g rs' (mkBoard (<[r := row]> (grid bd))) ∧
            Store.updates h b g rs h' rs'.
Proof.
  intros Hrepr Hr Hrow. pose proof Hrepr as (Hb & Hg & Hnd & Hlen & Hrows).
  pose proof (repr_dom _ _ _ _ _ Hrepr) as Hdom. unfold Store.objects in Hdom.
  unfold Store.assign_row, Store.alloc.
  pose proof (is_fresh (dom h)) as Hfresh. set (l := fresh (dom h)) in *.
  assert (l ≠ b) as Hlb by set_solver.
  assert (l ≠ g) as Hlg by set_solver.
  assert (l ∉ rs) as Hlrs by set_solver.
  unfold Store.grid_ref, Store.rows_of.
  rewrite lookup_insert_ne, Hb by done. simpl.
  rewrite lookup_insert_ne, Hg by done. simpl.
  destruct (lookup_lt_is_Some_2 rs r) as [l0 Hl0]; [lia|]. rewrite Hl0. simpl.
  eexists _, (<[r := l]> rs). split; [done|].
  assert (g ≠ b) as Hgb by (intros ->; congruence).
  split.
  - split; [by rewrite !lookup_insert_ne|]. split; [by rewrite lookup_insert_eq|].
    split; [by apply NoDup_insert_fresh|]. split; [by rewrite length_insert|].
    simpl. apply Forall2_insert.
    + apply Forall2_same_length_lookup. split; [by eapply Forall2_length|].
      intros i l' cs Hl' Hcs.
      destruct (Forall2_lookup_lr _ _ _ _ _ _ Hrows Hl' Hcs) as [Hhl' Hlen'].
      assert (l' ≠ g) by (intros ->; congruence).
      assert (l' ≠ l) by (intros ->; apply Hlrs; by eapply list_elem_of_lookup_2).
      by rewrite !lookup_insert_ne.
    + by rewrite lookup_insert_ne, lookup_insert_eq.
  - split; [|split].
    + intros l' Hl' Hout. unfold Store.objects in Hout.
      rewrite !lookup_insert_ne; [done|set_solver..].
    + intros x. unfold Store.objects. rewrite !dom_insert_L.
      rewrite !elem_of_union, elem_of_list_to_set.
      intros [?|[->|?]%elem_of_insert_inv]; set_solver.
    + rewrite !dom_insert_L. set_solver.
Qed.

Lemma assign_rows_repr idx : ∀ h b g rs bd row,
  Store.repr h b g rs bd → Forall (λ r, r < 8)%nat idx → length row = 8%nat →
  ∃ h' rs', Store.assign_rows h b idx row = Some h' ∧
            Store.repr h' b g rs'
              (mkBoard (foldl (λ gr r, <[r := row]> gr) (grid bd) idx)) ∧
            Store.updates h b g rs h' rs'.
Proof.
  induction idx as [|r idx IH]; intros h b g rs bd row Hrepr Hidx Hrow; simpl.
  { exists h, rs. split; [done|]. split; [by destruct bd|apply updates_refl]. }
  apply Forall_cons in Hidx as [Hr Hidx].
  destruct (assign_row_repr _ _ _ _ _ r row Hrepr Hr Hrow) as (h1 & rs1 & -> & Hr1 & Hu1).
  simpl. destruct (IH _ _ _ _ _ row Hr1 Hidx Hrow) as (h2 & rs2 & -> & Hr2 & Hu2).
  exists h2, rs2. split; [done|]. split; [done|]. by eapply updates_trans.
Qed.

Lemma reset_repr h b g rs bd :
  Store.repr h b g rs bd →
  ∃ h' rs', Store.reset h b = Some h' ∧
            Store.repr h' b g rs' (reset bd) ∧
            Store.updates h b g rs h' rs'.
Proof.
  intros Hrepr. unfold Store.reset, reset.
  destruct (assign_row_repr _ _ _ _ _ 0 (back_rank Black) Hrepr)
    as (h1 & rs1 & -> & Hr1 & Hu1); [lia|done|]. cbn [mbind option_bind].
  destruct (assign_row_repr _ _ _ _ _ 1 (replicate 8 (Some (Black, Pawn))) Hr1)
    as (h2 & rs2 & -> & Hr2 & Hu2); [lia|done|]. cbn [mbind option_bind].
  destruct (assign_rows_repr (seq 2 4) _ _ _ _ _ (replicate 8 None) Hr2)
    as (h3 & rs3 & -> & Hr3 & Hu3); [repeat constructor; lia|done|].
  cbn [mbind option_bind].
  destruct (assign_row_repr _ _ _ _ _ 6 (replicate 8 (Some (White, Pawn))) Hr3)
    as (h4 & rs4 & -> & Hr4 & Hu4); [lia|done|]. cbn [mbind option_bind].
  destruct (assign_row_repr _ _ _ _ _ 7 (back_rank White) Hr4)
    as (h5 & rs5 & -> & Hr5 & Hu5); [lia|done|].
  exists h5, rs5. split; [done|]. split; [done|].
  eauto using updates_trans.
Qed.

Lemma move_piece_repr h b g rs bd src dst promotion :
  Store.repr h b g rs bd →
  ∃ h', Store.move_piece h b src dst promotion = Some h' ∧
        Store.repr h' b g rs (move_piece bd src dst promotion) ∧
        Store.updates h b g rs h' rs.
Proof.
  intros Hrepr. destruct src as [sr sc], dst as [dr dc].
  unfold Store.move_piece, move_piece.
  rewrite (repr_get _ _ _ _ _ sr sc Hrepr). simpl.
  destruct (get bd sr sc) as [[color ptype]|].
  2: { exists h. split; [done|]. split; [done|apply updates_refl]. }
  destruct (set_repr _ _ _ _ _ dr dc
              (Some (color, promoted color ptype dr promotion)) Hrepr)
    as (h1 & -> & Hr1 & Hu1). simpl.
  destruct (set_repr _ _ _ _ _ sr sc None Hr1) as (h2 & -> & Hr2 & Hu2).
  exists h2. split; [done|]. split; [done|]. by eapply updates_trans.
Qed.

(** Every mutator runs to the end on a well-formed instance, acts on its
    contents as the value-level function does, and writes only objects of
    the instance. *)
Lemma apply_repr h b g rs bd m :
  Store.repr h b g rs bd →
  ∃ h' rs', Store.apply h b m = Some h' ∧
            Store.repr h' b g rs' (apply_value bd m) ∧
            Store.updates h b g rs h' rs'.
Proof.
  intros Hrepr. destruct m as [r c piece|src dst promotion|]; simpl.
  - destruct (set_repr _ _ _ _ _ r c piece Hrepr) as (h' & ? & ? & ?). by exists h', rs.
  - destruct (move_piece_repr _ _ _ _ _ src dst promotion Hrepr) as (h' & ? & ? & ?).
    by exists h', rs.
  - by apply reset_repr.
Qed.

Lemma run_repr ms : ∀ h b g rs bd,
  Store.repr h b g rs bd →
  ∃ h' rs', Store.run h b ms = Some h' ∧
            Store.repr h' b g rs' (foldl apply_value bd ms) ∧
            Store.updates h b g rs h' rs'.
Proof.
  induction ms as [|m ms IH]; intros h b g rs bd Hrepr; simpl.
  { exists h, rs. split; [done|]. split; [done|apply updates_refl]. }
  destruct (apply_repr _ _ _ _ _ m Hrepr) as (h1 & rs1 & -> & Hr1 & Hu1). simpl.
  destruct (IH _ _ _ _ _ Hr1) as (h2 & rs2 & -> & Hr2 & Hu2).
  exists h2, rs2. split; [done|]. split; [done|]. by eapply updates_trans.
Qed.

(** An instance whose objects are apart from those of the mutated one is
    left as it was, and stays apart. *)
Lemma updates_frame h x gx rsx h' rsx' y gy rsy bdy :
  Store.updates h x gx rsx h' rsx' →
  Store.repr h y gy rsy bdy →
  Store.objects x gx rsx ## Store.objects y gy rsy →
  Store.repr h' y gy rsy bdy ∧ Store.objects x gx rsx' ## Store.objects y gy rsy.
Proof.
  intros (Hframe & Hsub & Hdom) Hy Hdisj.
  pose proof (repr_dom _ _ _ _ _ Hy) as Hydom. split.
  - eapply repr_agree; [done|]. intros l Hl.
    apply Hframe; [by apply Hydom|]. intros Hx. by apply (Hdisj l).
  - intros l Hx Hl. pose proof (Hsub l Hx) as Hcases.
    apply elem_of_union in Hcases as [Hold|Hnew].
    + by apply (Hdisj l).
    + apply elem_of_difference in Hnew as [_ Hnew]. by apply Hnew, Hydom.
Qed.

(** *** [clone] *)

(** With distinct rows, none of them in the memo table, every row is
    copied to a new object. *)
Lemma copy_rows_spec rs : ∀ h (memo : gmap nat nat) (rows : list (list cell)),
  NoDup rs → (∀ l, l ∈ rs → memo !! l = None) →
  Forall2 (λ l cs, h !! l = Some (Store.ORow cs) ∧ length cs = 8%nat) rs rows →
  ∃ rs' h', Store.copy_rows h memo rs = Some (rs', h') ∧
    dom h ⊆ dom h' ∧
    (∀ l, l ∈ dom h → h' !! l = h !! l) ∧
    NoDup rs' ∧
    (∀ l, l ∈ rs' → l ∉ dom h ∧ l ∈ dom h') ∧
    Forall2 (λ l cs, h' !! l = Some (Store.ORow cs) ∧ length cs = 8%nat) rs' rows.
Proof.
  induction rs as [|l rs IH]; intros h memo rows Hnd Hmemo Hrows.
  { apply Forall2_nil_inv_l in Hrows as ->. exists [], h. simpl.
    split; [done|]. split; [done|]. split; [done|]. split; [constructor|].
    split; [|constructor]. intros l Hl. by apply elem_of_nil in Hl. }
  apply Forall2_cons_inv_l in Hrows as (cs & rows' & [Hl Hlen] & Hrows & ->).
  apply NoDup_cons in Hnd as [Hlrs Hnd].
  simpl. rewrite Hmemo by apply list_elem_of_here.
  unfold Store.cells_of at 1. rewrite Hl. cbn [mbind option_bind]. unfold Store.alloc.
  pose proof (is_fresh (dom h)) as Hfresh. set (l' := fresh (dom h)) in *.
  destruct (IH (<[l' := Store.ORow cs]> h) (<[l := l']> memo) rows' Hnd)
    as (rs' & h' & -> & Hdom & Hsame & Hnd' & Hnew & Hrows').
  { intros x Hx. rewrite lookup_insert_ne; [|by intros ->].
    apply Hmemo. by apply list_elem_of_further. }
  { eapply Forall2_impl; [done|]. intros x cs' [Hx ?]. split; [|done].
    rewrite lookup_insert_ne; [done|]. intros ->. apply Hfresh. by eapply elem_of_dom_2. }
  cbn [mbind option_bind]. exists (l' :: rs'), h'. rewrite dom_insert_L in Hdom, Hsame, Hnew.
  split; [done|]. split; [set_solver|].
  split.
  { intros x Hx. rewrite Hsame by set_solver. rewrite lookup_insert_ne; [done|].
    by intros ->. }
  split.
  { apply NoDup_cons. split; [|done]. intros Hl'. apply (Hnew l' Hl'). set_solver. }
  split.
  { intros x [->|Hx]%elem_of_cons; [set_solver|].
    destruct (Hnew x Hx) as [Hx1 Hx2]. set_solver. }
  constructor; [|done]. split; [|done].
  rewrite Hsame by set_solver. by rewrite lookup_insert_eq.
Qed.

(** [clone] leaves the instance as it is and builds, out of new objects
    only, an instance with the same contents. *)
Lemma clone_repr h b g rs bd :
  Store.repr h b g rs bd →
  ∃ b' h' g' rs', Store.clone h b = Some (b', h') ∧
    Store.repr h' b g rs bd ∧ Store.repr h' b' g' rs' bd ∧
    Store.objects b g rs ## Store.objects b' g' rs'.
Proof.
  intros Hrepr. pose proof Hrepr as (Hb & Hg & Hnd & Hlen & Hrows).
  pose proof (repr_dom _ _ _ _ _ Hrepr) as Hobj.
  unfold Store.clone, Store.grid_ref, Store.rows_of.
  rewrite Hb. cbn [mbind option_bind]. rewrite Hg. cbn [mbind option_bind].
  destruct (copy_rows_spec rs h ∅ (grid bd) Hnd) as
    (rs' & h1 & -> & Hdom & Hsame & Hnd' & Hnew & Hrows'); [done|done|].
  cbn [mbind option_bind]. unfold Store.alloc.
  pose proof (is_fresh (dom h1)) as Hg'. set (g' := fresh (dom h1)) in *.
  pose proof (is_fresh (dom (<[g' := Store.OGrid rs']> h1))) as Hb'.
  set (b' := fresh (dom (<[g' := Store.OGrid rs']> h1))) in *.
  rewrite dom_insert_L in Hb'.
  assert (b' ≠ g') as Hbg by set_solver.
  eexists b', _, g', rs'. split; [done|].
  assert (∀ l, l ∈ dom h1 →
    <[b' := Store.OBoard g']> (<[g' := Store.OGrid rs']> h1) !! l = h1 !! l) as Hold.
  { intros l Hl. rewrite !lookup_insert_ne; [done|set_solver..]. }
  split; [|split].
  - eapply repr_agree; [done|]. intros l Hl.
    rewrite Hold by set_solver. apply Hsame. set_solver.
  - split; [by rewrite lookup_insert_eq|].
    split; [by rewrite lookup_insert_ne, lookup_insert_eq|].
    split; [done|].
    split; [by rewrite (Forall2_length _ _ _ Hrows'), <- (Forall2_length _ _ _ Hrows)|].
    apply Forall2_same_length_lookup. split; [by eapply Forall2_length|].
    intros i l cs Hl Hcs. rewrite Hold.
    + by apply (Forall2_lookup_lr _ _ _ _ _ _ Hrows' Hl Hcs).
    + apply list_elem_of_lookup_2 in Hl. by apply Hnew.
  - intros l Hl Hl'. unfold Store.objects in Hl'.
    apply Hobj in Hl.
    apply elem_of_union in Hl' as [Hl'|Hl'%elem_of_list_to_set].
    + set_solver.
    + by apply (Hnew l Hl').
Qed.

(** *** The constructor *)

Lemma alloc_rows_spec n : ∀ h (row : list cell),
  length row = 8%nat →
  ∃ rs h', Store.alloc_rows h n row = (rs, h') ∧
    dom h ⊆ dom h' ∧
    (∀ l, l ∈ dom h → h' !! l = h !! l) ∧
    NoDup rs ∧
    (∀ l, l ∈ rs → l ∉ dom h ∧ l ∈ dom h') ∧
    Forall2 (λ l cs, h' !! l = Some (Store.ORow cs) ∧ length cs = 8%nat)
      rs (replicate n row).
Proof.
  induction n as [|n IH]; intros h row Hrow; simpl.
  { exists [], h. split; [done|]. split; [done|]. split; [done|].
    split; [constructor|]. split; [|constructor].
    intros l Hl. by apply elem_of_nil in Hl. }
  unfold Store.alloc.
  pose proof (is_fresh (dom h)) as Hfresh. set (l' := fresh (dom h)) in *.
  destruct (IH (<[l' := Store.ORow row]> h) row Hrow)
    as (rs & h' & -> & Hdom & Hsame & Hnd & Hnew & Hrows).
  exists (l' :: rs), h'. rewrite dom_insert_L in Hdom, Hsame, Hnew.
  split; [done|]. split; [set_solver|].
  split.
  { intros x Hx. rewrite Hsame by set_solver. rewrite lookup_insert_ne; [done|].
    by intros ->. }
  split.
  { apply NoDup_cons. split; [|done]. intros Hl'. apply (Hnew l' Hl'). set_solver. }
  split.
  { intros x [->|Hx]%elem_of_cons; [set_solver|].
    destruct (Hnew x Hx) as [Hx1 Hx2]. set_solver. }
  constructor; [|done]. split; [|done].
  rewrite Hsame by set_solver. by rewrite lookup_insert_eq.
Qed.

(** [Board()] builds, in any store, a well-formed instance holding the
    starting position. *)
Lemma init_repr h :
  ∃ b h' g rs, Store.init h = Some (b, h') ∧ Store.repr h' b g rs Board_init.
Proof.
  unfold Store.init.
  destruct (alloc_rows_spec (Z.to_nat ROWS) h (replicate (Z.to_nat COLS) None))
    as (rs & h1 & -> & Hdom & Hsame & Hnd & Hnew & Hrows); [done|].
  unfold Store.alloc.
  pose proof (is_fresh (dom h1)) as Hg. set (g := fresh (dom h1)) in *.
  pose proof (is_fresh (dom (<[g := Store.OGrid rs]> h1))) as Hb.
  set (b := fresh (dom (<[g := Store.OGrid rs]> h1))) in *.
  rewrite dom_insert_L in Hb.
  assert (b ≠ g) as Hbg by set_solver.
  assert (Store.repr (<[b := Store.OBoard g]> (<[g := Store.OGrid rs]> h1)) b g rs
            (mkBoard (replicate (Z.to_nat ROWS) (replicate (Z.to_nat COLS) None))))
    as Hrepr.
  { split; [by rewrite lookup_insert_eq|].
    split; [by rewrite lookup_insert_ne, lookup_insert_eq|].
    split; [done|].
    split; [by rewrite (Forall2_length _ _ _ Hrows), length_replicate|].
    apply Forall2_same_length_lookup. split; [by eapply Forall2_length|].
    intros i l cs Hl Hcs.
    assert (l ∈ dom h1) by (apply Hnew; by eapply list_elem_of_lookup_2).
    rewrite !lookup_insert_ne by set_solver.
    by apply (Forall2_lookup_lr _ _ _ _ _ _ Hrows Hl Hcs). }
  destruct (reset_repr _ _ _ _ _ Hrepr) as (h' & rs' & -> & Hrepr' & _).
  cbn [mbind option_bind]. by exists b, h', g, rs'.
Qed.

(** Mutating one of two instances with separate objects. *)
Lemma run_separate h x gx rsx bdx y gy rsy bdy ms :
  Store.repr h x gx rsx bdx → Store.repr h y gy rsy bdy →
  Store.objects x gx rsx ## Store.objects y gy rsy →
  ∃ h' rsx', Store.run h x ms = Some h' ∧
    Store.repr h' x gx rsx' (foldl apply_value bdx ms) ∧
    Store.repr h' y gy rsy bdy ∧
    Store.objects x gx rsx' ## Store.objects y gy rsy.
Proof.
  intros Hx Hy Hdisj.
  destruct (run_repr ms _ _ _ _ _ Hx) as (h' & rsx' & Hrun & Hx' & Hupd).
  destruct (updates_frame _ _ _ _ _ _ _ _ _ _ Hupd Hy Hdisj) as [Hy' Hdisj'].
  by exists h', rsx'.
Qed.

End store.

(** C7. The clone of a well-formed instance is independent of it: the
    copy answers [get] as the original does; whatever sequence of [set],
    [move_piece] and [reset] calls is then run on the clone, each of them
    completes and [get] and [material_score] on the original answer as
    before the clone was made; and whatever sequence is run on the
    original, the clone keeps answering as it did when it was made. *)
Theorem clone_independent (h : gmap nat Store.obj) (b : nat) :
  Store.wf h b →
  ∃ b' h1, Store.clone h b = Some (b', h1) ∧ b' ≠ b ∧
    (∀ r c, Store.get h1 b' r c = Store.get h b r c) ∧
    (∀ ms, ∃ h2, Store.run h1 b' ms = Some h2 ∧
       (∀ r c, Store.get h2 b r c = Store.get h b r c) ∧
       (∀ color, Store.material_score h2 b color = Store.material_score h b color)) ∧
    (∀ ms, ∃ h2, Store.run h1 b ms = Some h2 ∧
       (∀ r c, Store.get h2 b' r c = Store.get h1 b' r c) ∧
       (∀ color, Store.material_score h2 b' color = Store.material_score h1 b' color)).
Proof.
  intros (g & rs & bd & Hrepr)%wf_repr.
  destruct (clone_repr _ _ _ _ _ Hrepr) as (b' & h1 & g' & rs' & Hclone & Hb & Hb' & Hdisj).
  exists b', h1. split; [done|]. split.
  { intros ->. apply (Hdisj b); unfold Store.objects; set_solver. }
  split.
  { intros r c. by rewrite (repr_get _ _ _ _ _ r c Hb'), (repr_get _ _ _ _ _ r c Hrepr). }
  split.
  - intros ms.
    destruct (run_separate _ _ _ _ _ _ _ _ _ ms Hb' Hb) as (h2 & rs2 & Hrun & _ & Hb2 & _);
      [done|].
    exists h2. split; [done|]. split.
    + intros r c. by rewrite (repr_get _ _ _ _ _ r c Hb2), (repr_get _ _ _ _ _ r c Hrepr).
    + intros color. by rewrite (repr_material_score _ _ _ _ _ color Hb2),
        (repr_material_score _ _ _ _ _ color Hrepr).
  - intros ms.
    destruct (run_separate _ _ _ _ _ _ _ _ _ ms Hb Hb') as (h2 & rs2 & Hrun & _ & Hb2 & _);
      [done|].
    exists h2. split; [done|]. split.
    + intros r c. by rewrite (repr_get _ _ _ _ _ r c Hb2), (repr_get _ _ _ _ _ r c Hb').
    + intros color. by rewrite (repr_material_score _ _ _ _ _ color Hb2),
        (repr_material_score _ _ _ _ _ color Hb').
Qed.

Lemma clone_independent_witness :
  let h := start_store.2 in
  let b := start_store.1 in
  Store.wf h b ∧
  ∃ b' h1, Store.clone h b = Some (b', h1) ∧ b' ≠ b ∧
    (∀ r c, Store.get h1 b' r c = Store.get h b r c) ∧
    (∀ ms, ∃ h2, Store.run h1 b' ms = Some h2 ∧
       (∀ r c, Store.get h2 b r c = Store.get h b r c) ∧
       (∀ color, Store.material_score h2 b color = Store.material_score h b color)) ∧
    (∀ ms, ∃ h2, Store.run h1 b ms = Some h2 ∧
       (∀ r c, Store.get h2 b' r c = Store.get h1 b' r c) ∧
       (∀ color, Store.material_score h2 b' color = Store.material_score h1 b' color)).
Proof.
  intros h b.
  assert (Store.wf h b) as Hwf
    by (apply (bool_decide_unpack _); vm_compute; reflexivity).
  split; [exact Hwf|]. exact (clone_independent h b Hwf).
Defined.

(** * Further properties of the code *)

(** ** [Board]: [reset], [set] and [get], counting and scoring *)

Lemma get_cell_at b r c : in_bounds r c = true → get b r c = cell_at b r c.
Proof. intros Hin. unfold get. by rewrite Hin. Qed.

Lemma reset_Board_init b : length (grid b) = 8%nat → reset b = Board_init.
Proof.
  destruct b as [g]. simpl. intros Hlen.
  do 8 (destruct g as [|? g]; [done|]).
  by destruct g.
Qed.

(** X1. Whatever an 8x8 board holds, [reset] turns it into the standard
    starting position: black back rank and pawns on ranks 0 and 1, white
    pawns and back rank on ranks 6 and 7, nothing in between; 32 pieces.
    The previous contents play no part, so [reset] is idempotent. *)
Theorem reset_standard_position (b : Board) :
  wf_board b →
  wf_board (reset b) ∧
  (∀ r c, in_bounds r c = true → get (reset b) r c = standard_cell r c) ∧
  piece_count (reset b) = 32%nat ∧
  reset (reset b) = reset b.
Proof.
  intros [Hlen Hrows]. rewrite (reset_Board_init b Hlen).
  split; [apply Board_init_wf|]. split; [|split; [done|]].
  - intros r c [Hr Hc]%in_bounds_true.
    assert (r = 0 ∨ r = 1 ∨ r = 2 ∨ r = 3 ∨ r = 4 ∨ r = 5 ∨ r = 6 ∨ r = 7)
      as Hrs by lia.
    assert (c = 0 ∨ c = 1 ∨ c = 2 ∨ c = 3 ∨ c = 4 ∨ c = 5 ∨ c = 6 ∨ c = 7)
      as Hcs by lia.
    destruct_or!; subst r c; reflexivity.
  - apply reset_Board_init. apply Board_init_wf.
Qed.

Lemma reset_standard_position_witness :
  let b := set Board_init 3 3 (Some (White, Queen)) in
  wf_board b ∧
  wf_board (reset b) ∧
  (∀ r c, in_bounds r c = true → get (reset b) r c = standard_cell r c) ∧
  piece_count (reset b) = 32%nat ∧
  reset (reset b) = reset b.
Proof.
  intros b.
  assert (wf_board b) as Hwf
    by (split; [reflexivity|vm_compute; repeat constructor]).
  split; [exact Hwf|]. exact (reset_standard_position b Hwf).
Defined.

(** X2. On an 8x8 board a [set] on an in-range square is read back by
    [get] on that square, changes what [get] returns on no other square,
    and keeps the board 8x8; a second [set] on the same square overrides
    the first. *)
Theorem set_get_round_trip (b : Board) (r c : Z) (piece piece' : cell) :
  wf_board b → in_bounds r c = true →
  wf_board (set b r c piece) ∧
  get (set b r c piece) r c = piece ∧
  (∀ r' c', (r', c') ≠ (r, c) → get (set b r c piece) r' c' = get b r' c') ∧
  set (set b r c piece') r c piece = set b r c piece.
Proof.
  intros Hwf Hin. split; [by apply set_wf|]. split; [by apply get_set_eq|].
  split; [intros r' c' Hne; apply get_set_ne; congruence|].
  apply board_ext; [by do 2 apply set_wf|by apply set_wf|].
  intros r' c' Hin'. destruct (decide ((r, c) = (r', c'))) as [[= <- <-]|Hne].
  - rewrite !get_set_eq; [done|done|done|by apply set_wf|done].
  - by rewrite !get_set_ne.
Qed.

Lemma set_get_round_trip_witness :
  wf_board Board_init ∧ in_bounds 4 4 = true ∧
  wf_board (set Board_init 4 4 (Some (White, Knight))) ∧
  get (set Board_init 4 4 (Some (White, Knight))) 4 4 = Some (White, Knight) ∧
  (∀ r' c', (r', c') ≠ (4, 4) →
     get (set Board_init 4 4 (Some (White, Knight))) r' c' = get Board_init r' c') ∧
  set (set Board_init 4 4 None) 4 4 (Some (White, Knight))
  = set Board_init 4 4 (Some (White, Knight)).
Proof.
  assert (wf_board Board_init) as Hwf
    by (split; [reflexivity|vm_compute; repeat constructor]).
  split; [exact Hwf|]. split; [reflexivity|].
  exact (set_get_round_trip Board_init 4 4 (Some (White, Knight)) None Hwf eq_refl).
Defined.

(** *** Counting pieces across a [set] *)

Lemma count_row_insert (row : list cell) i x q :
  row !! i = Some x →
  (length (filter is_Some (<[i := q]> row)) + occupied x
   = length (filter is_Some row) + occupied q)%nat.
Proof.
  revert i. induction row as [|y row IH]; intros [|i] Hi; simplify_eq/=.
  - rewrite !filter_cons. destruct x, q; simpl;
      repeat case_decide; simpl; try lia;
      match goal with H : ¬ is_Some (Some _) |- _ => destruct H; by eexists
                 | H : is_Some None |- _ => by destruct H end.
  - rewrite !filter_cons. destruct (decide (is_Some y)); simpl.
    + rewrite <- (IH i Hi). lia.
    + by apply IH.
Qed.

Lemma count_grid_insert (g : list (list cell)) i j row x q :
  g !! i = Some row → row !! j = Some x →
  (length (filter is_Some (concat (alter (λ row, <[j := q]> row) i g))) + occupied x
   = length (filter is_Some (concat g)) + occupied q)%nat.
Proof.
  revert i. induction g as [|y g IH]; intros [|i] Hi Hj; simplify_eq/=.
  - rewrite !filter_app, !length_app.
    pose proof (count_row_insert row j x q Hj). lia.
  - rewrite !filter_app, !length_app.
    pose proof (IH i Hi Hj). lia.
Qed.

Lemma piece_count_set b r c q :
  wf_board b → in_bounds r c = true →
  (piece_count (set b r c q) + occupied (get b r c)
   = piece_count b + occupied q)%nat.
Proof.
  intros Hwf Hin. unfold get, set, cell_at, piece_count. rewrite Hin. simpl.
  apply in_bounds_true in Hin as [Hr Hc].
  destruct (wf_row b r Hwf Hr) as (row & Hrow & Hlen). rewrite Hrow.
  destruct (lookup_lt_is_Some_2 row (Z.to_nat c)) as [x Hx]; [lia|].
  rewrite Hx. simpl. by eapply count_grid_insert.
Qed.

(** X3. A move between two distinct in-range squares of an 8x8 board, from
    an occupied square, keeps the board 8x8 and removes exactly the piece
    that stood on the destination: the number of pieces drops by one when
    the destination was occupied and is unchanged when it was empty. *)
Theorem move_piece_count (b : Board) (sr sc dr dc : Z)
    (promotion : option PieceKind) (p : Piece) :
  wf_board b → get b sr sc = Some p → in_bounds dr dc = true →
  (sr, sc) ≠ (dr, dc) →
  let b' := move_piece b (sr, sc) (dr, dc) promotion in
  wf_board b' ∧
  (piece_count b' + occupied (get b dr dc) = piece_count b)%nat.
Proof.
  intros Hwf Hget Hdst Hne b'.
  pose proof (get_in_bounds _ _ _ _ Hget) as Hsrc.
  destruct p as [color ptype].
  set (placed := Some (color, promoted color ptype dr promotion)).
  assert (b' = set (set b dr dc placed) sr sc None) as ->.
  { unfold b', move_piece. by rewrite Hget. }
  split; [by do 2 apply set_wf|].
  pose proof (piece_count_set b dr dc placed Hwf Hdst) as H1.
  pose proof (piece_count_set (set b dr dc placed) sr sc None
                (set_wf _ _ _ _ Hwf) Hsrc) as H2.
  rewrite get_set_ne, Hget in H2 by congruence. simpl in H1, H2. lia.
Qed.

Lemma move_piece_count_witness :
  wf_board Board_init ∧ get Board_init 6 4 = Some (White, Pawn) ∧
  in_bounds 1 4 = true ∧ (6, 4) ≠ (1, 4) ∧
  let b' := move_piece Board_init (6, 4) (1, 4) None in
  wf_board b' ∧
  (piece_count b' + occupied (get Board_init 1 4) = piece_count Board_init)%nat.
Proof.
  assert (wf_board Board_init) as Hwf
    by (split; [reflexivity|vm_compute; repeat constructor]).
  assert ((6, 4) ≠ (1, 4)) as Hne by (intros [=]).
  split; [exact Hwf|]. split; [reflexivity|]. split; [reflexivity|].
  split; [exact Hne|].
  exact (move_piece_count Board_init 6 4 1 4 None (White, Pawn) Hwf eq_refl eq_refl Hne).
Defined.

(** *** The material score across a [set] *)

Lemma material_add_contribution color score piece :
  material_add color score piece = score + contribution color piece.
Proof. unfold contribution. destruct piece as [[pcolor ptype]|]; simpl; lia. Qed.

Lemma material_step_contribution b color score (sq : Square) :
  material_step b color score sq
  = score + contribution color (cell_at b sq.1 sq.2).
Proof. apply material_add_contribution. Qed.

Lemma material_fold_diff b b' color (sq0 : Square) sqs s s' :
  NoDup sqs →
  (∀ sq : Square, sq ∈ sqs → sq ≠ sq0 → cell_at b' sq.1 sq.2 = cell_at b sq.1 sq.2) →
  foldl (material_step b' color) s' sqs
  = foldl (material_step b color) s sqs + (s' - s)
    + (if decide (sq0 ∈ sqs)
       then contribution color (cell_at b' sq0.1 sq0.2)
            - contribution color (cell_at b sq0.1 sq0.2)
       else 0).
Proof.
  intros Hnd. revert s s'.
  induction Hnd as [|sq sqs Hsq Hnd IH]; intros s s' Hsame; cbn [foldl].
  { destruct (decide (sq0 ∈ [])) as [Hin|_]; [by apply elem_of_nil in Hin|lia]. }
  rewrite !material_step_contribution.
  rewrite (IH (s + contribution color (cell_at b sq.1 sq.2))
              (s' + contribution color (cell_at b' sq.1 sq.2)))
    by (intros x Hx; apply Hsame; by apply list_elem_of_further).
  destruct (decide (sq = sq0)) as [->|Hne].
  - destruct (decide (sq0 ∈ sqs)) as [?|_]; [done|].
    destruct (decide (sq0 ∈ sq0 :: sqs)) as [_|Hout]; [lia|].
    destruct Hout. apply list_elem_of_here.
  - rewrite (Hsame sq) by (done || apply list_elem_of_here).
    destruct (decide (sq0 ∈ sqs)) as [Hin|Hout];
      destruct (decide (sq0 ∈ sq :: sqs)) as [Hin'|Hout']; try lia.
    + destruct Hout'. by apply list_elem_of_further.
    + apply elem_of_cons in Hin' as [?|?]; congruence.
Qed.

Lemma material_score_set b r c q color :
  wf_board b → in_bounds r c = true →
  material_score (set b r c q) color
  = material_score b color - contribution color (get b r c) + contribution color q.
Proof.
  intros Hwf Hin. unfold material_score.
  rewrite (material_fold_diff b (set b r c q) color (r, c) squares 0 0).
  - destruct (decide ((r, c) ∈ squares)) as [_|Hout];
      [|destruct Hout; by apply squares_in_bounds].
    cbn [fst snd]. rewrite <- !get_cell_at by done. rewrite get_set_eq by done. lia.
  - apply squares_NoDup.
  - intros [r' c'] Hsq Hne. apply squares_in_bounds in Hsq. simpl.
    rewrite <- !get_cell_at by done. apply get_set_ne. congruence.
Qed.

(** X4. The material score after a move between two distinct in-range
    squares of an 8x8 board: the score of either side loses what the piece
    on the destination contributed, and gains the difference between the
    piece written and the piece moved (zero unless a pawn is promoted).  In
    particular a piece that captures an enemy piece, without promotion,
    raises its side's score by exactly the value of the captured piece, and
    a move to an empty square without promotion leaves both scores as they
    were. *)
Theorem move_piece_material (b : Board) (sr sc dr dc : Z)
    (promotion : option PieceKind) (pcolor : Color) (ptype : PieceKind)
    (color : Color) :
  wf_board b → get b sr sc = Some (pcolor, ptype) → in_bounds dr dc = true →
  (sr, sc) ≠ (dr, dc) →
  let b' := move_piece b (sr, sc) (dr, dc) promotion in
  let ptype' := promoted pcolor ptype dr promotion in
  material_score b' color
  = material_score b color - contribution color (get b dr dc)
    + (contribution color (Some (pcolor, ptype'))
       - contribution color (Some (pcolor, ptype))) ∧
  (ptype' = ptype →
   material_score b' color = material_score b color - contribution color (get b dr dc)) ∧
  (ptype' = ptype → get b dr dc = None →
   material_score b' color = material_score b color) ∧
  (ptype' = ptype →
   ∀ ocolor otype, get b dr dc = Some (ocolor, otype) → ocolor ≠ pcolor →
     material_score b' pcolor = material_score b pcolor + MATERIAL_VALUES otype).
Proof.
  intros Hwf Hget Hdst Hne b' ptype'.
  pose proof (get_in_bounds _ _ _ _ Hget) as Hsrc.
  assert (∀ color', material_score b' color'
    = material_score b color' - contribution color' (get b dr dc)
      + (contribution color' (Some (pcolor, ptype'))
         - contribution color' (Some (pcolor, ptype)))) as Hgen.
  { intros color'. unfold b', move_piece. rewrite Hget. fold ptype'.
    rewrite material_score_set by (done || by apply set_wf).
    rewrite material_score_set by done.
    rewrite get_set_ne, Hget by congruence.
    change (contribution color' None) with 0. lia. }
  split; [apply Hgen|]. split; [|split].
  - intros Heq. rewrite Hgen, Heq. lia.
  - intros Heq Hempty. rewrite Hgen, Heq, Hempty.
    change (contribution color None) with 0. lia.
  - intros Heq ocolor otype Hocc Henemy. rewrite Hgen, Heq, Hocc.
    unfold contribution. cbn [material_add].
    rewrite (decide_False (P := ocolor = pcolor)) by done. lia.
Qed.

Lemma move_piece_material_witness :
  let b := set Board_init 5 3 (Some (Black, Knight)) in
  wf_board b ∧ get b 6 4 = Some (White, Pawn) ∧ in_bounds 5 3 = true ∧
  (6, 4) ≠ (5, 3) ∧
  let b' := move_piece b (6, 4) (5, 3) None in
  let ptype' := promoted White Pawn 5 None in
  material_score b' White
  = material_score b White - contribution White (get b 5 3)
    + (contribution White (Some (White, ptype'))
       - contribution White (Some (White, Pawn))) ∧
  (ptype' = Pawn →
   material_score b' White = material_score b White - contribution White (get b 5 3)) ∧
  (ptype' = Pawn → get b 5 3 = None →
   material_score b' White = material_score b White) ∧
  (ptype' = Pawn →
   ∀ ocolor otype, get b 5 3 = Some (ocolor, otype) → ocolor ≠ White →
     material_score b' White = material_score b White + MATERIAL_VALUES otype).
Proof.
  intros b.
  assert (wf_board b) as Hwf
    by (split; [reflexivity|vm_compute; repeat constructor]).
  assert ((6, 4) ≠ (5, 3)) as Hne by (intros [=]).
  split; [exact Hwf|]. split; [reflexivity|]. split; [reflexivity|].
  split; [exact Hne|].
  exact (move_piece_material b 6 4 5 3 None White Pawn White Hwf eq_refl eq_refl Hne).
Defined.

(** ** [Rules]: what each kind of piece generates *)

Lemma landable_iff b color r c :
  landable b color r c ↔
  in_bounds r c = true ∧
  (is_empty (get b r c) || is_enemy (get b r c) color) = true.
Proof.
  unfold landable. destruct (get b r c) as [[ocolor optype]|]; simpl.
  - rewrite bool_decide_eq_true. split.
    + intros [Hin [?|(oc & ot & [= -> ->] & Hne)]]; done.
    + intros [Hin Hne]. split; [done|]. right. by exists ocolor, optype.
  - split; intros [Hin _]; (split; [done|]); [done|by left].
Qed.

Lemma elem_of_if_singleton {A} (cond : bool) (x y : A) :
  x ∈ (if cond then [y] else []) ↔ cond = true ∧ x = y.
Proof.
  destruct cond; rewrite ?list_elem_of_singleton, ?elem_of_nil; naive_solver.
Qed.

Lemma step_move_iff b r c color d m :
  m ∈ step_move b r c color d ↔
  m = ((r, c), (r + d.1, c + d.2)) ∧ landable b color (r + d.1) (c + d.2).
Proof.
  unfold step_move. rewrite landable_iff.
  destruct (in_bounds (r + d.1) (c + d.2)); simpl.
  - rewrite elem_of_if_singleton. naive_solver.
  - rewrite elem_of_nil. naive_solver.
Qed.

Lemma generate_legal_moves_intro b color ptype m :
  get b m.1.1 m.1.2 = Some (color, ptype) →
  m ∈ piece_moves b m.1.1 m.1.2 (color, ptype) →
  m ∈ generate_legal_moves b color.
Proof.
  intros Hget Hm. unfold generate_legal_moves.
  apply list_elem_of_bind. exists m.1. split.
  - rewrite Hget. simpl. by rewrite decide_True.
  - destruct m as [[r c] dst]. apply squares_in_bounds. simpl in *.
    by eapply get_in_bounds.
Qed.

Lemma moves_from_square b color ptype r c dst :
  get b r c = Some (color, ptype) →
  ((r, c), dst) ∈ generate_legal_moves b color ↔
  ((r, c), dst) ∈ piece_moves b r c (color, ptype).
Proof.
  intros Hget. split.
  - intros (ptype' & _ & Hget' & Hm)%generate_legal_moves_inv.
    simpl in *. by simplify_eq.
  - intros Hm. by apply (generate_legal_moves_intro b color ptype ((r, c), dst)).
Qed.

(** X5. The generator returns exactly the moves of the pieces of the side
    to move: a move is generated if and only if its source square holds a
    piece of that side and the move is one of those the piece's kind gives
    from that square.  Nothing is generated from an empty square or from a
    square of the other side, and nothing a piece can do is dropped. *)
Theorem generate_legal_moves_iff (b : Board) (color : Color) (m : Move) :
  m ∈ generate_legal_moves b color ↔
  ∃ ptype, get b m.1.1 m.1.2 = Some (color, ptype) ∧
           m ∈ piece_moves b m.1.1 m.1.2 (color, ptype).
Proof.
  split.
  - intros (ptype & _ & Hget & Hm)%generate_legal_moves_inv. by exists ptype.
  - intros (ptype & Hget & Hm). by eapply generate_legal_moves_intro.
Qed.

Lemma knight_deltas_iff (d : Z * Z) :
  d ∈ knight_deltas ↔
  (Z.abs d.1 = 1 ∧ Z.abs d.2 = 2) ∨ (Z.abs d.1 = 2 ∧ Z.abs d.2 = 1).
Proof.
  destruct d as [dr dc]. unfold knight_deltas. simpl.
  rewrite !elem_of_cons, elem_of_nil. split.
  - intros Hd. destruct_or!; simplify_eq; lia.
  - intros Hd.
    assert ((dr = -2 ∧ dc = -1) ∨ (dr = -2 ∧ dc = 1) ∨ (dr = 2 ∧ dc = -1) ∨
            (dr = 2 ∧ dc = 1) ∨ (dr = -1 ∧ dc = -2) ∨ (dr = -1 ∧ dc = 2) ∨
            (dr = 1 ∧ dc = -2) ∨ (dr = 1 ∧ dc = 2)) as Hcases by lia.
    destruct_or!; destruct_and!; subst; tauto.
Qed.

Lemma king_deltas_iff (d : Z * Z) :
  d ∈ king_deltas ↔ Z.max (Z.abs d.1) (Z.abs d.2) = 1.
Proof.
  destruct d as [dr dc].
  assert (king_deltas
          = [(-1, -1); (-1, 0); (-1, 1); (0, -1); (0, 1); (1, -1); (1, 0); (1, 1)])
    as -> by reflexivity.
  simpl. rewrite !elem_of_cons, elem_of_nil. split.
  - intros Hd. destruct_or!; simplify_eq; lia.
  - intros Hd.
    assert ((dr = -1 ∧ dc = -1) ∨ (dr = -1 ∧ dc = 0) ∨ (dr = -1 ∧ dc = 1) ∨
            (dr = 0 ∧ dc = -1) ∨ (dr = 0 ∧ dc = 1) ∨ (dr = 1 ∧ dc = -1) ∨
            (dr = 1 ∧ dc = 0) ∨ (dr = 1 ∧ dc = 1)) as Hcases by lia.
    destruct_or!; destruct_and!; subst; tauto.
Qed.

(** X6. A knight of the side to move goes exactly to the squares one rank
    and two files, or two ranks and one file, away that are in range and
    empty or held by the other side. *)
Theorem knight_destinations (b : Board) (color : Color) (r c r' c' : Z) :
  get b r c = Some (color, Knight) →
  ((r, c), (r', c')) ∈ generate_legal_moves b color ↔
  ((Z.abs (r' - r) = 1 ∧ Z.abs (c' - c) = 2) ∨
   (Z.abs (r' - r) = 2 ∧ Z.abs (c' - c) = 1)) ∧
  landable b color r' c'.
Proof.
  intros Hget. rewrite (moves_from_square _ _ _ _ _ _ Hget).
  change (piece_moves b r c (color, Knight))
    with (d ← knight_deltas; step_move b r c color d).
  rewrite list_elem_of_bind. split.
  - intros (d & [Hm Hland]%step_move_iff & Hd%knight_deltas_iff).
    simplify_eq. split; [|done].
    by replace (r + d.1 - r) with d.1 by lia; replace (c + d.2 - c) with d.2 by lia.
  - intros [Hd Hland]. exists (r' - r, c' - c). split.
    + apply step_move_iff. simpl.
      by replace (r + (r' - r)) with r' by lia; replace (c + (c' - c)) with c' by lia.
    + by apply knight_deltas_iff.
Qed.

Lemma knight_destinations_witness :
  get Board_init 7 1 = Some (White, Knight) ∧
  (((7, 1), (5, 2)) ∈ generate_legal_moves Board_init White ↔
   ((Z.abs (5 - 7) = 1 ∧ Z.abs (2 - 1) = 2) ∨
    (Z.abs (5 - 7) = 2 ∧ Z.abs (2 - 1) = 1)) ∧
   landable Board_init White 5 2).
Proof.
  split; [reflexivity|].
  exact (knight_destinations Board_init White 7 1 5 2 eq_refl).
Defined.

(** X7. A king of the side to move goes exactly to the adjacent squares
    (one step in rank, file or both) that are in range and empty or held by
    the other side; it never castles. *)
Theorem king_destinations (b : Board) (color : Color) (r c r' c' : Z) :
  get b r c = Some (color, King) →
  ((r, c), (r', c')) ∈ generate_legal_moves b color ↔
  Z.max (Z.abs (r' - r)) (Z.abs (c' - c)) = 1 ∧ landable b color r' c'.
Proof.
  intros Hget. rewrite (moves_from_square _ _ _ _ _ _ Hget).
  change (piece_moves b r c (color, King))
    with (d ← king_deltas; step_move b r c color d).
  rewrite list_elem_of_bind. split.
  - intros (d & [Hm Hland]%step_move_iff & Hd%king_deltas_iff).
    simplify_eq. split; [|done].
    by replace (r + d.1 - r) with d.1 by lia; replace (c + d.2 - c) with d.2 by lia.
  - intros [Hd Hland]. exists (r' - r, c' - c). split.
    + apply step_move_iff. simpl.
      by replace (r + (r' - r)) with r' by lia; replace (c + (c' - c)) with c' by lia.
    + by apply king_deltas_iff.
Qed.

Lemma king_destinations_witness :
  let b := set Board_init 4 4 (Some (Black, King)) in
  get b 4 4 = Some (Black, King) ∧
  (((4, 4), (5, 5)) ∈ generate_legal_moves b Black ↔
   Z.max (Z.abs (5 - 4)) (Z.abs (5 - 4)) = 1 ∧ landable b Black 5 5).
Proof.
  intros b. split; [reflexivity|].
  exact (king_destinations b Black 4 4 5 5 eq_refl).
Defined.

Lemma is_empty_iff (p : cell) : is_empty p = true ↔ p = None.
Proof. by destruct p. Qed.

Lemma is_enemy_iff (p : cell) color :
  is_enemy p color = true ↔ ∃ ocolor optype, p = Some (ocolor, optype) ∧ ocolor ≠ color.
Proof.
  destruct p as [[ocolor optype]|]; simpl.
  - rewrite bool_decide_eq_true. naive_solver.
  - naive_solver.
Qed.

Lemma pawn_moves_iff b r c color r' c' :
  ((r, c), (r', c')) ∈ pawn_moves b r c (color, Pawn) ↔
  let d := dir_forward color in
  (r' = r + d ∧ c' = c ∧ in_bounds r' c' = true ∧ get b r' c' = None) ∨
  (r = start_row color ∧ r' = r + 2 * d ∧ c' = c ∧
   in_bounds (r + d) c = true ∧ get b (r + d) c = None ∧
   in_bounds r' c' = true ∧ get b r' c' = None) ∨
  (r' = r + d ∧ Z.abs (c' - c) = 1 ∧ in_bounds r' c' = true ∧
   ∃ ocolor optype, get b r' c' = Some (ocolor, optype) ∧ ocolor ≠ color).
Proof.
  unfold pawn_moves. cbn [fst]. set (d := dir_forward color). cbv zeta.
  rewrite elem_of_app, list_elem_of_bind. split.
  - intros [Hm|(dc & Hm & Hdc)].
    + destruct (in_bounds (r + d) c && is_empty (get b (r + d) c)) eqn:H1;
        [|by apply elem_of_nil in Hm].
      apply andb_true_iff in H1 as [Hin1 He1%is_empty_iff].
      apply elem_of_cons in Hm as [[= -> ->]|Hm]; [by left|].
      apply elem_of_if_singleton in Hm as [H2 [= -> ->]].
      apply andb_true_iff in H2 as [[Hr%Z.eqb_eq Hin2]%andb_true_iff He2%is_empty_iff].
      right; left. replace (r + 2 * d) with (r + d + d) by lia. done.
    + apply elem_of_if_singleton in Hm as [H1 [= -> ->]].
      apply andb_true_iff in H1 as [Hin He%is_enemy_iff].
      right; right. split; [done|]. split; [|done].
      apply elem_of_cons in Hdc as [->|Hdc]; [lia|].
      apply list_elem_of_singleton in Hdc as ->. lia.
  - intros [(-> & -> & Hin & He)|[(Hr & -> & -> & Hin1 & He1 & Hin2 & He2)|
                                   (-> & Hc & Hin & He)]].
    + left. rewrite Hin, He. simpl. apply list_elem_of_here.
    + left. rewrite Hin1, He1. simpl. apply list_elem_of_further.
      replace (r + 2 * d) with (r + d + d) in * by lia.
      rewrite Hin2, He2. apply Z.eqb_eq in Hr. rewrite Hr. simpl.
      apply list_elem_of_here.
    + right. exists (c' - c). split.
      * apply elem_of_if_singleton. replace (c + (c' - c)) with c' by lia.
        split; [|done]. rewrite Hin. simpl. by apply is_enemy_iff.
      * rewrite !elem_of_cons, elem_of_nil. lia.
Qed.

(** X8. A pawn of the side to move goes exactly: one step forward (towards
    rank 0 for White, rank 7 for Black) onto an empty in-range square; two
    steps forward from its starting rank when both squares are empty; one
    step forward and one file aside onto a square held by the other side.
    It never captures straight ahead and never moves diagonally onto an
    empty square. *)
Theorem pawn_destinations (b : Board) (color : Color) (r c r' c' : Z) :
  get b r c = Some (color, Pawn) →
  ((r, c), (r', c')) ∈ generate_legal_moves b color ↔
  let d := dir_forward color in
  (r' = r + d ∧ c' = c ∧ in_bounds r' c' = true ∧ get b r' c' = None) ∨
  (r = start_row color ∧ r' = r + 2 * d ∧ c' = c ∧
   in_bounds (r + d) c = true ∧ get b (r + d) c = None ∧
   in_bounds r' c' = true ∧ get b r' c' = None) ∨
  (r' = r + d ∧ Z.abs (c' - c) = 1 ∧ in_bounds r' c' = true ∧
   ∃ ocolor optype, get b r' c' = Some (ocolor, optype) ∧ ocolor ≠ color).
Proof.
  intros Hget. rewrite (moves_from_square _ _ _ _ _ _ Hget).
  apply pawn_moves_iff.
Qed.

Lemma pawn_destinations_witness :
  get Board_init 1 3 = Some (Black, Pawn) ∧
  (((1, 3), (3, 3)) ∈ generate_legal_moves Board_init Black ↔
   let d := dir_forward Black in
   (3 = 1 + d ∧ 3 = 3 ∧ in_bounds 3 3 = true ∧ get Board_init 3 3 = None) ∨
   (1 = start_row Black ∧ 3 = 1 + 2 * d ∧ 3 = 3 ∧
    in_bounds (1 + d) 3 = true ∧ get Board_init (1 + d) 3 = None ∧
    in_bounds 3 3 = true ∧ get Board_init 3 3 = None) ∨
   (3 = 1 + d ∧ Z.abs (3 - 3) = 1 ∧ in_bounds 3 3 = true ∧
    ∃ ocolor optype, get Board_init 3 3 = Some (ocolor, optype) ∧ ocolor ≠ Black)).
Proof.
  split; [reflexivity|].
  exact (pawn_destinations Board_init Black 1 3 3 3 eq_refl).
Defined.

(** *** Rays *)

(** The moves of the loop started on (nr, nc): the [k]-th square of the
    ray is a destination when the squares before it are in range and
    empty and it can be landed on. *)
Lemma ray_iff fuel b r c color dr dc : ∀ nr nc m,
  m ∈ ray fuel b r c color nr nc dr dc ↔
  ∃ k, 0 ≤ k < Z.of_nat fuel ∧
    m = ((r, c), (nr + k * dr, nc + k * dc)) ∧
    (∀ j, 0 ≤ j < k →
       in_bounds (nr + j * dr) (nc + j * dc) = true ∧
       get b (nr + j * dr) (nc + j * dc) = None) ∧
    landable b color (nr + k * dr) (nc + k * dc).
Proof.
  induction fuel as [|fuel IH]; intros nr nc m.
  { simpl. rewrite elem_of_nil. split; [done|]. intros (k & ? & _). lia. }
  cbn [ray]. split.
  - intros Hm. destruct (in_bounds nr nc) eqn:Hin; [|by apply elem_of_nil in Hm].
    destruct (get b nr nc) as [[ocolor optype]|] eqn:Hget.
    + apply elem_of_if_singleton in Hm as [(oc & ot & [= <- <-] & Hne)%is_enemy_iff ->].
      exists 0. split; [lia|]. rewrite !Z.mul_0_l, !Z.add_0_r.
      split; [done|]. split; [intros j; lia|].
      split; [done|]. right. by exists ocolor, optype.
    + apply elem_of_cons in Hm as [->|Hm].
      { exists 0. split; [lia|]. rewrite !Z.mul_0_l, !Z.add_0_r.
        split; [done|]. split; [intros j; lia|]. split; [done|by left]. }
      apply IH in Hm as (k & Hk & -> & Hpath & Hland).
      exists (k + 1). split; [lia|].
      replace (nr + (k + 1) * dr) with (nr + dr + k * dr) by lia.
      replace (nc + (k + 1) * dc) with (nc + dc + k * dc) by lia.
      split; [done|]. split; [|done].
      intros j Hj. destruct (decide (j = 0)) as [->|Hj0].
      { by rewrite !Z.mul_0_l, !Z.add_0_r. }
      replace (nr + j * dr) with (nr + dr + (j - 1) * dr) by lia.
      replace (nc + j * dc) with (nc + dc + (j - 1) * dc) by lia.
      apply Hpath. lia.
  - intros (k & Hk & -> & Hpath & Hland).
    destruct (decide (k = 0)) as [->|Hk0].
    + rewrite !Z.mul_0_l, !Z.add_0_r in *. destruct Hland as [Hin Hocc].
      rewrite Hin. destruct Hocc as [->|(oc & ot & -> & Hne)].
      * apply list_elem_of_here.
      * apply elem_of_if_singleton. split; [|done].
        apply is_enemy_iff. by exists oc, ot.
    + destruct (Hpath 0) as [Hin Hget]; [lia|].
      rewrite !Z.mul_0_l, !Z.add_0_r in Hin, Hget. rewrite Hin, Hget.
      apply list_elem_of_further, IH. exists (k - 1). split; [lia|].
      replace (nr + dr + (k - 1) * dr) with (nr + k * dr) by lia.
      replace (nc + dc + (k - 1) * dc) with (nc + k * dc) by lia.
      split; [done|]. split; [|done].
      intros j Hj.
      replace (nr + dr + j * dr) with (nr + (j + 1) * dr) by lia.
      replace (nc + dc + j * dc) with (nc + (j + 1) * dc) by lia.
      apply Hpath. lia.
Qed.

Lemma unit_direction (d : Z * Z) :
  d ∈ queen_directions → (-1 ≤ d.1 ≤ 1) ∧ (-1 ≤ d.2 ≤ 1) ∧ (d.1 ≠ 0 ∨ d.2 ≠ 0).
Proof.
  unfold queen_directions. rewrite !elem_of_cons, elem_of_nil.
  intros Hd. destruct_or!; subst; simpl; lia.
Qed.

Lemma sliding_directions_queen ptype d :
  d ∈ sliding_directions ptype → d ∈ queen_directions.
Proof.
  destruct ptype; simpl; try (by intros ?%elem_of_nil);
    unfold bishop_directions, rook_directions, queen_directions;
    rewrite !elem_of_cons, !elem_of_nil; tauto.
Qed.

(** With a unit direction the bound of [ROWS] iterations is no limit: a
    square of the ray that is in range is at most seven steps away. *)
Lemma sliding_ray_iff b r c color (d : Z * Z) r' c' :
  d ∈ queen_directions →
  ((r, c), (r', c')) ∈ ray (Z.to_nat ROWS) b r c color (r + d.1) (c + d.2) d.1 d.2 ↔
  ∃ k, 1 ≤ k ∧ r' = r + k * d.1 ∧ c' = c + k * d.2 ∧
       path_clear b r c d.1 d.2 k ∧ landable b color r' c'.
Proof.
  intros (Hd1 & Hd2 & Hnz)%unit_direction. rewrite ray_iff. unfold path_clear. split.
  - intros (k & Hk & [= -> ->] & Hpath & Hland). exists (k + 1).
    split; [lia|]. split; [lia|]. split; [lia|]. split.
    + intros j Hj.
      replace (r + j * d.1) with (r + d.1 + (j - 1) * d.1) by lia.
      replace (c + j * d.2) with (c + d.2 + (j - 1) * d.2) by lia.
      apply Hpath. lia.
    + by replace (r + (k + 1) * d.1) with (r + d.1 + k * d.1) by lia;
         replace (c + (k + 1) * d.2) with (c + d.2 + k * d.2) by lia.
  - intros (k & Hk & -> & -> & Hpath & Hland). exists (k - 1).
    replace (r + d.1 + (k - 1) * d.1) with (r + k * d.1) by lia.
    replace (c + d.2 + (k - 1) * d.2) with (c + k * d.2) by lia.
    split; [|split; [done|split; [|done]]].
    + assert (in_bounds (r + 1 * d.1) (c + 1 * d.2) = true) as Hfirst.
      { destruct (decide (k = 1)) as [->|?]; [apply Hland|apply Hpath; lia]. }
      destruct Hland as [Hlast _].
      apply in_bounds_true in Hfirst, Hlast. unfold ROWS. nia.
    + intros j Hj.
      replace (r + d.1 + j * d.1) with (r + (j + 1) * d.1) by lia.
      replace (c + d.2 + j * d.2) with (c + (j + 1) * d.2) by lia.
      apply Hpath. lia.
Qed.

(** X9. A bishop, rook or queen of the side to move goes exactly to the
    squares reached by some number of steps in one of its directions
    (diagonal for the bishop, orthogonal for the rook, both for the queen)
    such that every square passed on the way is in range and empty and the
    square reached is in range and empty or held by the other side: the
    ray runs to the edge of the board, stops at the first piece, includes
    it when it is an enemy and never jumps over it. *)
Theorem sliding_destinations (b : Board) (color : Color) (ptype : PieceKind)
    (r c r' c' : Z) :
  get b r c = Some (color, ptype) →
  ptype = Bishop ∨ ptype = Rook ∨ ptype = Queen →
  ((r, c), (r', c')) ∈ generate_legal_moves b color ↔
  ∃ d k, d ∈ sliding_directions ptype ∧ 1 ≤ k ∧
         r' = r + k * d.1 ∧ c' = c + k * d.2 ∧
         path_clear b r c d.1 d.2 k ∧ landable b color r' c'.
Proof.
  intros Hget Hkind. rewrite (moves_from_square _ _ _ _ _ _ Hget).
  assert (piece_moves b r c (color, ptype)
          = d ← sliding_directions ptype;
            ray (Z.to_nat ROWS) b r c color (r + d.1) (c + d.2) d.1 d.2) as ->.
  { by destruct Hkind as [->|[->| ->]]. }
  rewrite list_elem_of_bind. split.
  - intros (d & Hm & Hd). exists d.
    apply sliding_ray_iff in Hm as (k & Hm); [|by eapply sliding_directions_queen].
    exists k. tauto.
  - intros (d & k & Hd & Hm). exists d. split; [|done].
    apply sliding_ray_iff; [by eapply sliding_directions_queen|]. by exists k.
Qed.

Lemma sliding_destinations_witness :
  get (lone_rook White) 3 3 = Some (White, Rook) ∧
  (Rook = Bishop ∨ Rook = Rook ∨ Rook = Queen) ∧
  (((3, 3), (3, 7)) ∈ generate_legal_moves (lone_rook White) White ↔
   ∃ d k, d ∈ sliding_directions Rook ∧ 1 ≤ k ∧
          3 = 3 + k * d.1 ∧ 7 = 3 + k * d.2 ∧
          path_clear (lone_rook White) 3 3 d.1 d.2 k ∧
          landable (lone_rook White) White 3 7).
Proof.
  assert (Rook = Bishop ∨ Rook = Rook ∨ Rook = Queen) as Hkind
    by (right; left; reflexivity).
  split; [reflexivity|]. split; [exact Hkind|].
  exact (sliding_destinations (lone_rook White) White Rook 3 3 3 7 eq_refl Hkind).
Defined.

(** *** Applying a generated move *)

Lemma generated_move_facts b color m :
  m ∈ generate_legal_moves b color →
  ∃ ptype, get b m.1.1 m.1.2 = Some (color, ptype) ∧
    in_bounds m.2.1 m.2.2 = true ∧ m.1 ≠ m.2 ∧
    (get b m.2.1 m.2.2 = None ∨
     ∃ ocolor optype, get b m.2.1 m.2.2 = Some (ocolor, optype) ∧ ocolor ≠ color).
Proof.
  intros (ptype & Hsrc & Hget & Hm)%generate_legal_moves_inv.
  destruct (piece_moves_ok _ _ _ _ _ Hm) as (_ & Hdst & Hocc). simpl in Hocc.
  assert (landable b color m.2.1 m.2.2) as [_ Hland] by (by apply landable_iff).
  exists ptype. split; [done|]. split; [done|]. split; [|done].
  intros Heq. rewrite <- Heq, Hget in Hland.
  destruct Hland as [?|(oc & ot & [= <- <-] & Hne)]; done.
Qed.

Lemma contribution_own color ptype :
  contribution color (Some (color, ptype)) = MATERIAL_VALUES ptype.
Proof. unfold contribution. simpl. rewrite decide_True by done. lia. Qed.

Lemma MATERIAL_VALUES_nonneg ptype : 0 ≤ MATERIAL_VALUES ptype.
Proof. destruct ptype; simpl; lia. Qed.

(** X10. Applying a generated move to an 8x8 board, as the game and the AI
    do (no promotion kind): the two squares differ, the source is left
    empty, the destination holds the moved piece (a queen of the same side
    when it is a pawn reaching its last rank), no other square changes, the
    only piece that can disappear is an enemy piece that stood on the
    destination, and the mover's material score never goes down. *)
Theorem generated_move_applied (b : Board) (color : Color) (m : Move) :
  wf_board b → m ∈ generate_legal_moves b color →
  let b' := move_piece b m.1 m.2 None in
  m.1 ≠ m.2 ∧
  wf_board b' ∧
  get b' m.1.1 m.1.2 = None ∧
  (∃ ptype, get b m.1.1 m.1.2 = Some (color, ptype) ∧
     get b' m.2.1 m.2.2 = Some (color, promoted color ptype m.2.1 None)) ∧
  (∀ r c, (r, c) ≠ m.1 → (r, c) ≠ m.2 → get b' r c = get b r c) ∧
  (piece_count b' + occupied (get b m.2.1 m.2.2) = piece_count b)%nat ∧
  material_score b color ≤ material_score b' color.
Proof.
  intros Hwf (ptype & Hget & Hdst & Hne & Hland)%generated_move_facts b'.
  destruct m as [[sr sc] [dr dc]]. simpl in *.
  pose proof (get_in_bounds _ _ _ _ Hget) as Hsrc.
  set (ptype' := promoted color ptype dr None).
  assert (b' = set (set b dr dc (Some (color, ptype'))) sr sc None) as ->.
  { unfold b', move_piece. by rewrite Hget. }
  split; [done|]. split; [by do 2 apply set_wf|].
  split; [apply get_set_eq; [by apply set_wf|done]|].
  split; [exists ptype; split; [done|];
          rewrite get_set_ne by done; by apply get_set_eq|].
  split; [intros r c Hs Hd; by rewrite !get_set_ne by congruence|].
  split.
  - pose proof (piece_count_set b dr dc (Some (color, ptype')) Hwf Hdst) as H1.
    pose proof (piece_count_set (set b dr dc (Some (color, ptype'))) sr sc None
                  (set_wf _ _ _ _ Hwf) Hsrc) as H2.
    rewrite get_set_ne, Hget in H2 by congruence. simpl in H1, H2. lia.
  - rewrite material_score_set by (done || by apply set_wf).
    rewrite material_score_set by done.
    rewrite get_set_ne, Hget by congruence.
    rewrite !contribution_own. change (contribution color None) with 0.
    assert (contribution color (get b dr dc) ≤ 0) as Hcap.
    { destruct Hland as [->|(oc & ot & -> & Hoc)]; [done|].
      unfold contribution. cbn [material_add].
      rewrite (decide_False (P := oc = color)) by done.
      pose proof (MATERIAL_VALUES_nonneg ot). lia. }
    assert (MATERIAL_VALUES ptype ≤ MATERIAL_VALUES ptype') as Hpromo.
    { unfold ptype', promoted. destruct ptype; try lia.
      destruct color; case_match; simpl; lia. }
    lia.
Qed.

Lemma generated_move_applied_witness :
  wf_board Board_init ∧
  ((6, 4), (4, 4)) ∈ generate_legal_moves Board_init White ∧
  let b' := move_piece Board_init (6, 4) (4, 4) None in
  (6, 4) ≠ (4, 4) ∧
  wf_board b' ∧
  get b' 6 4 = None ∧
  (∃ ptype, get Board_init 6 4 = Some (White, ptype) ∧
     get b' 4 4 = Some (White, promoted White ptype 4 None)) ∧
  (∀ r c, (r, c) ≠ (6, 4) → (r, c) ≠ (4, 4) → get b' r c = get Board_init r c) ∧
  (piece_count b' + occupied (get Board_init 4 4) = piece_count Board_init)%nat ∧
  material_score Board_init White ≤ material_score b' White.
Proof.
  assert (wf_board Board_init) as Hwf
    by (split; [reflexivity|vm_compute; repeat constructor]).
  assert (((6, 4), (4, 4)) ∈ generate_legal_moves Board_init White) as Hm
    by (apply (bool_decide_unpack _); vm_compute; reflexivity).
  split; [exact Hwf|]. split; [exact Hm|].
  exact (generated_move_applied Board_init White ((6, 4), (4, 4)) Hwf Hm).
Defined.

(** ** [SimpleAI]: what [choose_move] picks *)

Lemma best_step_inv b color done st move :
  best_inv b color done st →
  best_inv b color (done ++ [move]) (best_step b color st move).
Proof.
  destruct st as [[best|] bests]; unfold best_inv; simpl.
  - intros [Hmax Hbests].
    destruct (Qcompare_spec (eval_score b color move) best) as [Heq|Hlt|Hgt]; simpl.
    + split.
      * intros m [Hm| ->%list_elem_of_singleton]%elem_of_app; [by apply Hmax|].
        rewrite Heq. apply Qle_refl.
      * intros m. rewrite !elem_of_app, !list_elem_of_singleton, Hbests.
        split; [|tauto]. intros [[? ?]| ->]; [tauto|]. split; [by right|done].
    + split.
      * intros m [Hm| ->%list_elem_of_singleton]%elem_of_app; [by apply Hmax|].
        by apply Qlt_le_weak.
      * intros m. rewrite !elem_of_app, !list_elem_of_singleton, Hbests.
        split; [tauto|]. intros [[?| ->] Hm]; [done|].
        rewrite Hm in Hlt. by apply Qlt_irrefl in Hlt.
    + split.
      * intros m [Hm| ->%list_elem_of_singleton]%elem_of_app; [|apply Qle_refl].
        apply Qlt_le_weak. eapply Qle_lt_trans; [by apply Hmax|done].
      * intros m. rewrite !elem_of_app, !list_elem_of_singleton.
        split; [intros ->; split; [by right|done]|].
        intros [[Hm| ->] Heq]; [|done].
        apply Hmax in Hm. rewrite Heq in Hm.
        exfalso. eapply Qlt_irrefl, Qle_lt_trans; done.
  - intros [-> ->]. simpl. split.
    + intros m ->%list_elem_of_singleton. apply Qle_refl.
    + intros m. rewrite !list_elem_of_singleton. split; [by intros ->|tauto].
Qed.

Lemma best_fold_inv b color moves :
  best_inv b color moves (foldl (best_step b color) (None, []) moves).
Proof.
  induction moves as [|move moves IH] using rev_ind; [done|].
  rewrite foldl_app. simpl. by apply best_step_inv.
Qed.

(** The moves kept by the first loop are the generated moves of maximal
    score. *)
Lemma best_moves_iff b color moves m :
  m ∈ best_moves b color moves ↔
  m ∈ moves ∧ ∀ m', m' ∈ moves → (eval_score b color m' <= eval_score b color m)%Q.
Proof.
  pose proof (best_fold_inv b color moves) as Hinv.
  pose proof (best_moves_nonempty b color moves) as Hne.
  unfold best_moves, best_inv in *.
  destruct (foldl (best_step b color) (None, []) moves) as [[best|] bests]; simpl in *.
  - destruct Hinv as [Hmax Hbests]. rewrite Hbests. split.
    + intros [Hm Heq]. split; [done|]. intros m' Hm'. rewrite Heq. by apply Hmax.
    + intros [Hm Hle]. split; [done|]. apply Qle_antisym; [by apply Hmax|].
      destruct bests as [|m0 bests'].
      { destruct Hne; [|done]. intros ->. by apply elem_of_nil in Hm. }
      destruct (proj1 (Hbests m0)) as [Hm0 Heq0]; [apply list_elem_of_here|].
      rewrite <- Heq0. by apply Hle.
  - destruct Hinv as [-> ->]. rewrite elem_of_nil. naive_solver.
Qed.

Lemma captured_value_nonneg b m : 0 ≤ captured_value b m.
Proof.
  unfold captured_value, capture_value.
  destruct (get b m.2.1 m.2.2) as [[? ptype]|]; [apply MATERIAL_VALUES_nonneg|done].
Qed.

Lemma capture_step_inv b done st mv :
  capture_inv b done st → capture_inv b (done ++ [mv]) (capture_step b st mv).
Proof.
  destruct st as [caps val]. unfold capture_inv, capture_step. simpl.
  intros (Hval & Hmax & Hcaps & Hwit).
  destruct (get b mv.2.1 mv.2.2) as [[ocolor optype]|] eqn:Hget; simpl.
  - assert (captures b mv) as Hcap by (unfold captures; by rewrite Hget).
    assert (captured_value b mv = MATERIAL_VALUES optype) as Hv
      by (unfold captured_value; by rewrite Hget).
    rewrite <- Hv. clear Hget Hv.
    destruct (val <? captured_value b mv) eqn:Hlt; simpl;
      [apply Z.ltb_lt in Hlt|apply Z.ltb_ge in Hlt].
    + split; [lia|]. split; [|split].
      * intros m [Hm| ->%list_elem_of_singleton]%elem_of_app Hc; [|lia].
        specialize (Hmax m Hm Hc). lia.
      * intros m. rewrite elem_of_app, !list_elem_of_singleton. split.
        -- intros ->. split; [by right|done].
        -- intros [[Hm| ->] [Hc Heq]]; [|done]. specialize (Hmax m Hm Hc). lia.
      * right. exists mv. split; [|done]. apply elem_of_app. right.
        by apply list_elem_of_singleton.
    + destruct (captured_value b mv =? val) eqn:Heq; simpl;
        [apply Z.eqb_eq in Heq|apply Z.eqb_neq in Heq].
      * split; [done|]. split; [|split].
        -- intros m [Hm| ->%list_elem_of_singleton]%elem_of_app Hc; [by apply Hmax|lia].
        -- intros m. rewrite !elem_of_app, !list_elem_of_singleton, Hcaps.
           split; [|tauto]. intros [?| ->]; [tauto|]. split; [by right|done].
        -- right. exists mv. split; [|done]. apply elem_of_app. right.
           by apply list_elem_of_singleton.
      * split; [done|]. split; [|split].
        -- intros m [Hm| ->%list_elem_of_singleton]%elem_of_app Hc; [by apply Hmax|lia].
        -- intros m. rewrite !elem_of_app, !list_elem_of_singleton, Hcaps.
           split; [tauto|]. intros [[?| ->] [? ?]]; [done|lia].
        -- destruct Hwit as [?|(m & Hm & ?)]; [by left|]. right. exists m.
           split; [|done]. apply elem_of_app. by left.
  - assert (¬ captures b mv) as Hcap
      by (unfold captures; rewrite Hget; intros Hnn; by apply Hnn).
    split; [done|]. split; [|split].
    + intros m [Hm| ->%list_elem_of_singleton]%elem_of_app Hc; [by apply Hmax|done].
    + intros m. rewrite !elem_of_app, !list_elem_of_singleton, Hcaps.
      split; [tauto|]. intros [[?| ->] [? ?]]; done.
    + destruct Hwit as [?|(m & Hm & ?)]; [by left|]. right. exists m.
      split; [|done]. apply elem_of_app. by left.
Qed.

Lemma capture_fold_inv b bests :
  capture_inv b bests (foldl (capture_step b) ([], 0) bests).
Proof.
  induction bests as [|mv bests IH] using rev_ind.
  { unfold capture_inv. simpl. split; [done|]. split; [by intros m ?%elem_of_nil|].
    split; [|by left]. intros m. rewrite elem_of_nil. tauto. }
  rewrite foldl_app. simpl. by apply capture_step_inv.
Qed.

(** The moves kept by the second loop are the captures of highest value
    among the moves it is given. *)
Lemma capture_best_iff b bests m :
  m ∈ capture_best b bests ↔
  m ∈ bests ∧ captures b m ∧
  ∀ m', m' ∈ bests → captures b m' → captured_value b m' ≤ captured_value b m.
Proof.
  unfold capture_best. destruct (capture_fold_inv b bests) as (Hval & Hmax & Hcaps & Hwit).
  rewrite Hcaps. split.
  - intros (Hm & Hc & Heq). split; [done|]. split; [done|].
    intros m' Hm' Hc'. rewrite Heq. by apply Hmax.
  - intros (Hm & Hc & Hbest). split; [done|]. split; [done|].
    apply Z.le_antisymm; [by apply Hmax|].
    destruct Hwit as [->|(m0 & Hm0 & Hc0 & <-)]; [apply captured_value_nonneg|].
    by apply Hbest.
Qed.

(** What [random.choice] is called on: the generated moves of maximal
    score, restricted to the captures of highest value when one of them
    captures. *)
Lemma final_candidates_iff b color m :
  m ∈ final_candidates b color ↔
  let bests := best_moves b color (generate_legal_moves b color) in
  m ∈ bests ∧
  ((captures b m ∧
    ∀ m', m' ∈ bests → captures b m' → captured_value b m' ≤ captured_value b m) ∨
   (∀ m', m' ∈ bests → ¬ captures b m')).
Proof.
  unfold final_candidates. cbv zeta.
  set (bests := best_moves b color (generate_legal_moves b color)).
  destruct (capture_best b bests) as [|m0 caps] eqn:Hcaps.
  - split.
    + intros Hm. split; [done|]. right. intros m' Hm' Hc'.
      pose proof (capture_fold_inv b bests) as (Hval & Hmax & Hin & Hwit).
      unfold capture_best in Hcaps. rewrite Hcaps in Hin.
      destruct Hwit as [H0|(m1 & Hm1 & Hc1 & Hv1)].
      * assert (captured_value b m' = (foldl (capture_step b) ([], 0) bests).2) as Heq.
        { pose proof (Hmax m' Hm' Hc'). pose proof (captured_value_nonneg b m'). lia. }
        by apply (elem_of_nil m'), Hin.
      * by apply (elem_of_nil m1), Hin.
    + tauto.
  - rewrite <- Hcaps. rewrite capture_best_iff. split.
    + intros (Hm & Hc & Hbest). split; [done|]. by left.
    + intros [Hm [[Hc Hbest]|Hnone]]; [done|].
      assert (m0 ∈ capture_best b bests) as (Hm0 & Hc0 & _)%capture_best_iff
        by (rewrite Hcaps; apply list_elem_of_here).
      by destruct (Hnone m0).
Qed.

Lemma choose_move_candidates rnd b color m :
  choose_move rnd b color = Returned (Some m) → m ∈ final_candidates b color.
Proof.
  unfold choose_move. destruct (generate_legal_moves b color); [done|].
  destruct (random_choice rnd (final_candidates b color)) as [|x] eqn:Hx; [done|].
  intros [= <-]. by eapply random_choice_elem.
Qed.

(** X11. When exactly one move is generated for the side, [choose_move]
    returns that move whatever the random draw. *)
Theorem choose_move_single (rnd : nat) (b : Board) (color : Color) (m : Move) :
  generate_legal_moves b color = [m] →
  choose_move rnd b color = Returned (Some m).
Proof.
  intros Hmoves.
  pose proof (final_candidates_nonempty b color) as Hne.
  pose proof (final_candidates_subset b color) as Hsub.
  unfold choose_move. rewrite Hmoves in *.
  destruct (random_choice_returns rnd (final_candidates b color)) as [x Hx];
    [by apply Hne|].
  rewrite Hx. apply random_choice_elem, Hsub, list_elem_of_singleton in Hx.
  by subst.
Qed.

Lemma choose_move_single_witness :
  let b := set (set empty_board 0 0 (Some (White, Pawn))) 6 0 (Some (Black, Pawn)) in
  generate_legal_moves b Black = [((6, 0), (7, 0))] ∧
  choose_move 3 b Black = Returned (Some ((6, 0), (7, 0))).
Proof.
  intros b.
  assert (generate_legal_moves b Black = [((6, 0), (7, 0))]) as Hmoves
    by reflexivity.
  split; [exact Hmoves|].
  exact (choose_move_single 3 b Black ((6, 0), (7, 0)) Hmoves).
Defined.

(** X12. The move [choose_move] returns is a generated move whose score
    (material of the side after the move, plus a tenth of the value of the
    piece taken) is maximal among all generated moves, whatever the random
    draw. *)
Theorem choose_move_greedy (rnd : nat) (b : Board) (color : Color) (m : Move) :
  choose_move rnd b color = Returned (Some m) →
  m ∈ generate_legal_moves b color ∧
  ∀ m', m' ∈ generate_legal_moves b color →
        (eval_score b color m' <= eval_score b color m)%Q.
Proof.
  intros Hm%choose_move_candidates. apply final_candidates_iff in Hm as [Hm _].
  by apply best_moves_iff in Hm.
Qed.

Lemma choose_move_greedy_witness :
  let b := set Board_init 2 3 (Some (White, Queen)) in
  let m : Move := ((1, 4), (2, 3)) in
  choose_move 1 b Black = Returned (Some m) ∧
  m ∈ generate_legal_moves b Black ∧
  ∀ m', m' ∈ generate_legal_moves b Black →
        (eval_score b Black m' <= eval_score b Black m)%Q.
Proof.
  intros b m.
  assert (choose_move 1 b Black = Returned (Some m)) as Hm
    by (vm_compute; reflexivity).
  split; [exact Hm|]. exact (choose_move_greedy 1 b Black m Hm).
Defined.

Lemma best_moves_same_score b color moves m m' :
  m ∈ best_moves b color moves → m' ∈ moves →
  (eval_score b color m' == eval_score b color m)%Q →
  m' ∈ best_moves b color moves.
Proof.
  rewrite !best_moves_iff. intros [Hm Hmax] Hm' Heq. split; [done|].
  intros x Hx. rewrite Heq. by apply Hmax.
Qed.

(** X13. Among the generated moves that tie on the maximal score, a move
    that takes a piece is preferred: if any of them lands on a piece, the
    move returned lands on a piece too, and no tied move takes a piece of
    higher value. *)
Theorem choose_move_prefers_captures (rnd : nat) (b : Board) (color : Color)
    (m m' : Move) :
  choose_move rnd b color = Returned (Some m) →
  m' ∈ generate_legal_moves b color →
  (eval_score b color m' == eval_score b color m)%Q →
  captures b m' →
  captures b m ∧ captured_value b m' ≤ captured_value b m.
Proof.
  intros Hm%choose_move_candidates Hm' Heq Hc'.
  apply final_candidates_iff in Hm as [Hm Hcases].
  pose proof (best_moves_same_score _ _ _ _ _ Hm Hm' Heq) as Hbest'.
  destruct Hcases as [[Hc Hmax]|Hnone].
  - split; [done|]. by apply Hmax.
  - by destruct (Hnone m').
Qed.

Lemma choose_move_prefers_captures_witness :
  let b := set Board_init 2 3 (Some (White, Queen)) in
  let m : Move := ((1, 4), (2, 3)) in
  let m' : Move := ((1, 2), (2, 3)) in
  choose_move 1 b Black = Returned (Some m) ∧
  m' ∈ generate_legal_moves b Black ∧
  (eval_score b Black m' == eval_score b Black m)%Q ∧
  captures b m' ∧
  captures b m ∧
  captured_value b m' ≤ captured_value b m.
Proof.
  intros b m m'.
  assert (choose_move 1 b Black = Returned (Some m)) as Hm
    by (vm_compute; reflexivity).
  assert (m' ∈ generate_legal_moves b Black) as Hm'
    by (apply (bool_decide_unpack _); vm_compute; reflexivity).
  assert (eval_score b Black m' == eval_score b Black m)%Q as Heq
    by (vm_compute; reflexivity).
  assert (captures b m') as Hc by (vm_compute; discriminate).
  split; [exact Hm|]. split; [exact Hm'|]. split; [exact Heq|]. split; [exact Hc|].
  exact (choose_move_prefers_captures 1 b Black m m' Hm Hm' Heq Hc).
Defined.

(** X14. No candidate is left out of the draw: a generated move of maximal
    score is returned for some random draw as soon as it passes the
    tie-break, that is, when it takes a piece of the highest value taken by
    a maximal-score move, or when no maximal-score move takes a piece. *)
Theorem choose_move_any_candidate (b : Board) (color : Color) (m : Move) :
  m ∈ generate_legal_moves b color →
  (∀ m', m' ∈ generate_legal_moves b color →
         (eval_score b color m' <= eval_score b color m)%Q) →
  (captures b m ∧
   ∀ m', m' ∈ generate_legal_moves b color →
         (eval_score b color m' == eval_score b color m)%Q →
         captures b m' → captured_value b m' ≤ captured_value b m) ∨
  (∀ m', m' ∈ generate_legal_moves b color →
         (eval_score b color m' == eval_score b color m)%Q → ¬ captures b m') →
  ∃ rnd, choose_move rnd b color = Returned (Some m).
Proof.
  intros Hm Hmax Htie.
  assert (m ∈ best_moves b color (generate_legal_moves b color)) as Hbest
    by (by apply best_moves_iff).
  assert (∀ m', m' ∈ best_moves b color (generate_legal_moves b color) →
    m' ∈ generate_legal_moves b color ∧
    (eval_score b color m' == eval_score b color m)%Q) as Hsame.
  { intros m' [Hm' Hmax']%best_moves_iff. split; [done|].
    apply Qle_antisym; [by apply Hmax|by apply Hmax']. }
  assert (m ∈ final_candidates b color) as Hcand.
  { apply final_candidates_iff. split; [done|]. destruct Htie as [[Hc Hcv]|Hnone].
    - left. split; [done|]. intros m' [Hm' Heq]%Hsame Hc'. by apply Hcv.
    - right. intros m' [Hm' Heq]%Hsame. by apply Hnone. }
  destruct (random_choice_any _ _ Hcand) as [rnd Hrnd]. exists rnd.
  unfold choose_move. rewrite Hrnd.
  destruct (generate_legal_moves b color); [by apply elem_of_nil in Hm|done].
Qed.

Lemma choose_move_any_candidate_witness :
  let b := set Board_init 2 3 (Some (White, Queen)) in
  let m : Move := ((1, 2), (2, 3)) in
  let other : Move := ((1, 4), (2, 3)) in
  (other ≠ m ∧ choose_move 1 b Black = Returned (Some other)) ∧
  m ∈ generate_legal_moves b Black ∧
  (∀ m', m' ∈ generate_legal_moves b Black →
         (eval_score b Black m' <= eval_score b Black m)%Q) ∧
  ((captures b m ∧
    ∀ m', m' ∈ generate_legal_moves b Black →
          (eval_score b Black m' == eval_score b Black m)%Q →
          captures b m' → captured_value b m' ≤ captured_value b m) ∨
   (∀ m', m' ∈ generate_legal_moves b Black →
          (eval_score b Black m' == eval_score b Black m)%Q → ¬ captures b m')) ∧
  ∃ rnd, choose_move rnd b Black = Returned (Some m).
Proof.
  intros b m other.
  assert (other ≠ m ∧ choose_move 1 b Black = Returned (Some other)) as H0
    by (split; [discriminate|vm_compute; reflexivity]).
  assert (m ∈ generate_legal_moves b Black) as H1
    by (apply (bool_decide_unpack _); vm_compute; reflexivity).
  assert (Forall (λ m', Qle_bool (eval_score b Black m') (eval_score b Black m) = true)
            (generate_legal_moves b Black)) as Hle
    by (apply (bool_decide_unpack _); vm_compute; reflexivity).
  assert (∀ m', m' ∈ generate_legal_moves b Black →
            (eval_score b Black m' <= eval_score b Black m)%Q) as H2.
  { intros m' Hm'. apply Qle_bool_iff. exact (proj1 (Forall_forall _ _) Hle m' Hm'). }
  assert (Forall (λ m', captured_value b m' ≤ captured_value b m)
            (generate_legal_moves b Black)) as Hcv
    by (apply (bool_decide_unpack _); vm_compute; reflexivity).
  assert (captures b m) as Hc by (vm_compute; discriminate).
  assert ((captures b m ∧
           ∀ m', m' ∈ generate_legal_moves b Black →
                 (eval_score b Black m' == eval_score b Black m)%Q →
                 captures b m' → captured_value b m' ≤ captured_value b m) ∨
          (∀ m', m' ∈ generate_legal_moves b Black →
                 (eval_score b Black m' == eval_score b Black m)%Q →
                 ¬ captures b m')) as H3.
  { left. split; [exact Hc|]. intros m' Hm' _ _.
    exact (proj1 (Forall_forall _ _) Hcv m' Hm'). }
  split; [exact H0|]. split; [exact H1|]. split; [exact H2|]. split; [exact H3|].
  exact (choose_move_any_candidate b Black m H1 H2 H3).
Defined.

(** ** [Game]: clicks, AI turns and the loop *)

Lemma SQUARE_SIZE_eq : SQUARE_SIZE = 80.
Proof. reflexivity. Qed.

(** X15. A click is decoded to the square drawn under it: every pixel of
    the 80x80 rectangle that [_draw_board] paints for (r, c) is mapped back
    to (r, c), and a pixel is mapped to an in-range square exactly when it
    lies inside the 640x640 window. *)
Theorem coord_from_mouse_square (r c dx dy : Z) :
  0 ≤ dx < SQUARE_SIZE → 0 ≤ dy < SQUARE_SIZE →
  coord_from_mouse (c * SQUARE_SIZE + dx, r * SQUARE_SIZE + dy) = (r, c) ∧
  ∀ x y, in_bounds (coord_from_mouse (x, y)).1 (coord_from_mouse (x, y)).2 = true ↔
         (0 ≤ x < WIDTH ∧ 0 ≤ y < HEIGHT).
Proof.
  rewrite SQUARE_SIZE_eq. intros Hdx Hdy. unfold coord_from_mouse.
  rewrite SQUARE_SIZE_eq. split.
  - f_equal.
    + rewrite Z.add_comm, Z.div_add by lia. rewrite Z.div_small by lia. lia.
    + rewrite Z.add_comm, Z.div_add by lia. rewrite Z.div_small by lia. lia.
  - intros x y. simpl. rewrite in_bounds_true. unfold WIDTH, HEIGHT.
    pose proof (Z.div_mod x 80). pose proof (Z.mod_pos_bound x 80).
    pose proof (Z.div_mod y 80). pose proof (Z.mod_pos_bound y 80).
    lia.
Qed.

Lemma coord_from_mouse_square_witness :
  0 ≤ 79 < SQUARE_SIZE ∧ 0 ≤ 0 < SQUARE_SIZE ∧
  coord_from_mouse (4 * SQUARE_SIZE + 79, 6 * SQUARE_SIZE + 0) = (6, 4) ∧
  ∀ x y, in_bounds (coord_from_mouse (x, y)).1 (coord_from_mouse (x, y)).2 = true ↔
         (0 ≤ x < WIDTH ∧ 0 ≤ y < HEIGHT).
Proof.
  assert (0 ≤ 79 < SQUARE_SIZE) as H1 by (vm_compute; split; [discriminate|reflexivity]).
  assert (0 ≤ 0 < SQUARE_SIZE) as H2 by (vm_compute; split; [discriminate|reflexivity]).
  split; [exact H1|]. split; [exact H2|].
  exact (coord_from_mouse_square 6 4 79 0 H1 H2).
Defined.

Lemma move_piece_wf b src dst promotion :
  wf_board b → wf_board (move_piece b src dst promotion).
Proof.
  intros Hwf. destruct src as [sr sc], dst as [dr dc]. unfold move_piece.
  destruct (get b sr sc) as [[color ptype]|]; [|done]. by do 2 apply set_wf.
Qed.

Lemma owns_iff (piece : cell) color :
  owns piece color = true ↔ ∃ ptype, piece = Some (color, ptype).
Proof.
  destruct piece as [[pcolor ptype]|]; simpl.
  - rewrite bool_decide_eq_true. naive_solver.
  - naive_solver.
Qed.

(** The game after the move from [src] to [dst] is played. *)
Lemma try_moves_spec g r c src mvs :
  (∀ mv : Move, mv ∈ mvs → mv.1 = src) →
  try_moves g r c mvs
  = if decide ((src, (r, c)) ∈ mvs)
    then Some (post_move
                 (mkGame (move_piece (board g) src (r, c) None) (selected g)
                    (legal_moves_from_selected g) (current_turn g) (ai_color g)))
    else None.
Proof.
  induction mvs as [|[src' dst] mvs IH]; intros Hsrc; cbn [try_moves].
  { destruct (decide ((src, (r, c)) ∈ [])) as [Hin|_]; [by apply elem_of_nil in Hin|done]. }
  assert (src' = src) as -> by (apply (Hsrc (src', dst)), list_elem_of_here).
  destruct (decide (dst = (r, c))) as [->|Hne].
  - destruct (decide ((src, (r, c)) ∈ (src, (r, c)) :: mvs)) as [_|Hout]; [done|].
    destruct Hout. apply list_elem_of_here.
  - rewrite IH by (intros mv Hmv; apply Hsrc; by apply list_elem_of_further).
    destruct (decide ((src, (r, c)) ∈ mvs)) as [Hin|Hout];
      destruct (decide ((src, (r, c)) ∈ (src, dst) :: mvs)) as [Hin'|Hout']; try done.
    + destruct Hout'. by apply list_elem_of_further.
    + apply elem_of_cons in Hin' as [Heq|?]; [|done]. by simplify_eq.
Qed.

Lemma cached_moves_iff b color (src : Square) (m : Move) :
  m ∈ filter (λ mv : Move, mv.1 = src) (generate_legal_moves b color) ↔
  m.1 = src ∧ m ∈ generate_legal_moves b color.
Proof. by rewrite list_elem_of_filter. Qed.

Lemma handle_click_cases (g : Game) (pos : Z * Z) :
  game_inv g →
  let sq := coord_from_mouse pos in
  let g' := handle_click g pos in
  let moves := generate_legal_moves (board g) (current_turn g) in
  game_inv g' ∧
  (owns (get (board g) sq.1 sq.2) (current_turn g) = true →
   g' = mkGame (board g) (Some sq) (filter (λ mv : Move, mv.1 = sq) moves)
               (current_turn g) (ai_color g)) ∧
  (owns (get (board g) sq.1 sq.2) (current_turn g) = false →
   ∀ src, selected g = Some src → (src, sq) ∈ moves →
     g' = mkGame (move_piece (board g) src sq None) None []
                 (other_color (current_turn g)) (ai_color g)) ∧
  (owns (get (board g) sq.1 sq.2) (current_turn g) = false →
   (∀ src, selected g = Some src → (src, sq) ∉ moves) →
   g' = match selected g with
        | Some _ => mkGame (board g) None [] (current_turn g) (ai_color g)
        | None => g
        end).
Proof.
  intros [Hwf Hcache] sq g' moves. subst moves.
  unfold g', handle_click. fold sq. destruct sq as [r c] eqn:Hsq. cbn [fst snd].
  destruct (owns (get (board g) r c) (current_turn g)) eqn:Howns.
  - assert (game_inv (select g r c)) as Hinv by (by split).
    destruct (selected g); (split; [done|]); (split; [done|]); by split.
  - destruct (selected g) as [src|] eqn:Hsel.
    + rewrite Hcache.
      rewrite (try_moves_spec g r c src) by (by intros mv [? _]%cached_moves_iff).
      destruct (decide ((src, (r, c)) ∈ filter (λ mv : Move, mv.1 = src)
                          (generate_legal_moves (board g) (current_turn g))))
        as [Hin|Hout].
      * apply cached_moves_iff in Hin as [_ Hin].
        split; [split; [by apply (move_piece_wf (board g))|done]|]. split; [done|].
        split.
        -- intros _ src' [= <-] _. done.
        -- intros _ Hnone. by destruct (Hnone src).
      * split; [by split|]. split; [done|]. split; [|done].
        intros _ src' [= <-] Hin. destruct Hout. by apply cached_moves_iff.
    + split; [split; [done|by rewrite Hsel]|]. split; [done|]. split; [|done].
      by intros _ src [=].
Qed.


(** X16. What a click does, in a game whose cache of moves is up to date.
    On a piece of the side to move it selects that piece and caches the
    generated moves that leave its square.  Elsewhere, with a piece
    selected, it plays the move from the selected square to the clicked
    one exactly when that move is generated for the side to move, and then
    passes the turn; in every other case it only clears the selection.  So
    a click never plays a move the generator does not give, and never moves
    a piece of the side that is not to move. *)
Theorem handle_click_effect (g : Game) (pos : Z * Z) :
  game_inv g →
  let sq := coord_from_mouse pos in
  let g' := handle_click g pos in
  let moves := generate_legal_moves (board g) (current_turn g) in
  game_inv g' ∧
  (owns (get (board g) sq.1 sq.2) (current_turn g) = true →
   g' = mkGame (board g) (Some sq) (filter (λ mv : Move, mv.1 = sq) moves)
               (current_turn g) (ai_color g)) ∧
  (owns (get (board g) sq.1 sq.2) (current_turn g) = false →
   ∀ src, selected g = Some src → (src, sq) ∈ moves →
     g' = mkGame (move_piece (board g) src sq None) None []
                 (other_color (current_turn g)) (ai_color g)) ∧
  (owns (get (board g) sq.1 sq.2) (current_turn g) = false →
   (∀ src, selected g = Some src → (src, sq) ∉ moves) →
   g' = match selected g with
        | Some _ => mkGame (board g) None [] (current_turn g) (ai_color g)
        | None => g
        end).
Proof. apply handle_click_cases. Qed.

Lemma handle_click_effect_witness :
  let g := mkGame Board_init (Some (6, 4))
             (filter (λ mv : Move, mv.1 = (6, 4))
                (generate_legal_moves Board_init White)) White Black in
  let pos := (4 * 80 + 10, 4 * 80 + 10) in
  game_inv g ∧
  let sq := coord_from_mouse pos in
  let g' := handle_click g pos in
  let moves := generate_legal_moves (board g) (current_turn g) in
  game_inv g' ∧
  (owns (get (board g) sq.1 sq.2) (current_turn g) = true →
   g' = mkGame (board g) (Some sq) (filter (λ mv : Move, mv.1 = sq) moves)
               (current_turn g) (ai_color g)) ∧
  (owns (get (board g) sq.1 sq.2) (current_turn g) = false →
   ∀ src, selected g = Some src → (src, sq) ∈ moves →
     g' = mkGame (move_piece (board g) src sq None) None []
                 (other_color (current_turn g)) (ai_color g)) ∧
  (owns (get (board g) sq.1 sq.2) (current_turn g) = false →
   (∀ src, selected g = Some src → (src, sq) ∉ moves) →
   g' = match selected g with
        | Some _ => mkGame (board g) None [] (current_turn g) (ai_color g)
        | None => g
        end).
Proof.
  intros g pos.
  assert (game_inv g) as Hinv.
  { split; [|reflexivity]. split; [reflexivity|vm_compute; repeat constructor]. }
  split; [exact Hinv|]. exact (handle_click_effect g pos Hinv).
Defined.

Lemma choose_move_cases rnd b color :
  (generate_legal_moves b color = [] ∧ choose_move rnd b color = Returned None) ∨
  (∃ m, m ∈ generate_legal_moves b color ∧
        choose_move rnd b color = Returned (Some m)).
Proof.
  pose proof (final_candidates_nonempty b color) as Hne.
  pose proof (final_candidates_subset b color) as Hsub.
  unfold choose_move.
  destruct (generate_legal_moves b color) as [|m0 moves] eqn:Hmoves; [by left|].
  right. destruct (random_choice_returns rnd (final_candidates b color)) as [x Hx];
    [by apply Hne|].
  exists x. rewrite Hx. split; [|done]. by eapply Hsub, random_choice_elem.
Qed.

Lemma ai_move_if_needed_cases rnd g :
  game_inv g →
  ∃ g', ai_move_if_needed rnd g = Returned g' ∧ game_inv g' ∧
    (is_ai_turn g = false → g' = g) ∧
    (is_ai_turn g = true →
     current_turn g' = other_color (current_turn g) ∧ (pass g g' ∨ ply g g')).
Proof.
  intros [Hwf Hcache]. unfold ai_move_if_needed.
  destruct (is_ai_turn g) eqn:Hai; simpl.
  2: { exists g. split; [done|]. split; [by split|]. by split. }
  pose proof Hai as Hturn. unfold is_ai_turn in Hturn.
  apply bool_decide_eq_true in Hturn. rewrite <- Hturn.
  destruct (choose_move_cases rnd (board g) (current_turn g))
    as [[Hnone ->]|(m & Hm & ->)].
  - exists (post_move g). split; [done|]. split; [by split|]. split; [done|].
    intros _. split; [done|]. left. by repeat split.
  - eexists. split; [done|]. split; [split; [by apply (move_piece_wf (board g))|done]|].
    split; [done|]. intros _. split; [done|]. right. exists m. by repeat split.
Qed.

(** X17. An AI turn, in a game whose board is 8x8: the call does not
    raise; when it is not the AI's turn nothing changes; when it is, the
    turn always passes to the other side, after a generated move of the AI's
    side has been applied to the board, or with the board untouched when
    the AI has no move. *)
Theorem ai_move_if_needed_effect (rnd : nat) (g : Game) :
  game_inv g →
  ∃ g', ai_move_if_needed rnd g = Returned g' ∧ game_inv g' ∧
    (is_ai_turn g = false → g' = g) ∧
    (is_ai_turn g = true →
     current_turn g' = other_color (current_turn g) ∧ (pass g g' ∨ ply g g')).
Proof. apply ai_move_if_needed_cases. Qed.

Lemma ai_move_if_needed_effect_witness :
  let g := mkGame Board_init None [] Black Black in
  game_inv g ∧
  ∃ g', ai_move_if_needed 7 g = Returned g' ∧ game_inv g' ∧
    (is_ai_turn g = false → g' = g) ∧
    (is_ai_turn g = true →
     current_turn g' = other_color (current_turn g) ∧ (pass g g' ∨ ply g g')).
Proof.
  intros g.
  assert (game_inv g) as Hinv.
  { split; [|reflexivity]. split; [reflexivity|vm_compute; repeat constructor]. }
  split; [exact Hinv|]. exact (ai_move_if_needed_effect 7 g Hinv).
Defined.

(** *** The loop *)

Lemma ply_piece_count g g' :
  wf_board (board g) → ply g g' →
  (piece_count (board g') ≤ piece_count (board g))%nat.
Proof.
  intros Hwf (m & Hm & -> & _).
  apply generated_move_facts in Hm as (ptype & Hget & Hdst & Hne & _).
  destruct m as [[sr sc] [dr dc]]. simpl in *.
  pose proof (get_in_bounds _ _ _ _ Hget) as Hsrc.
  unfold move_piece. rewrite Hget.
  set (placed := Some (current_turn g, promoted (current_turn g) ptype dr None)).
  pose proof (piece_count_set (board g) dr dc placed Hwf Hdst) as H1.
  pose proof (piece_count_set (set (board g) dr dc placed) sr sc None
                (set_wf _ _ _ _ Hwf) Hsrc) as H2.
  rewrite get_set_ne, Hget in H2 by congruence. simpl in H1, H2. lia.
Qed.

Lemma game_step_piece_count g g' :
  wf_board (board g) → game_step g g' →
  (piece_count (board g') ≤ piece_count (board g))%nat.
Proof.
  intros Hwf [(-> & _)|[Hply|(_ & _ & -> & _)]]; [done| |done].
  by apply ply_piece_count.
Qed.

Lemma handle_click_step g pos :
  game_inv g → game_inv (handle_click g pos) ∧ game_step g (handle_click g pos).
Proof.
  intros Hinv.
  destruct (handle_click_cases g pos Hinv) as (Hinv' & Hown & Hmove & Hclear).
  split; [done|].
  set (sq := coord_from_mouse pos) in *.
  destruct (owns (get (board g) sq.1 sq.2) (current_turn g)) eqn:Howns.
  { rewrite Hown by done. by left. }
  destruct (selected g) as [src|] eqn:Hsel.
  - destruct (decide ((src, sq) ∈ generate_legal_moves (board g) (current_turn g)))
      as [Hin|Hout].
    + rewrite (Hmove eq_refl src eq_refl Hin). right; left.
      exists (src, sq). by repeat split.
    + rewrite Hclear; [by left|done|]. by intros src' [= <-].
  - rewrite Hclear; [by left|done|done].
Qed.

Lemma handle_event_step g running ev :
  game_inv g →
  game_inv (handle_event (g, running) ev).1 ∧
  game_step g (handle_event (g, running) ev).1.
Proof.
  intros Hinv. assert (game_step g g) as Hrefl by (by left).
  destruct ev as [|button pos|]; simpl; [done| |done].
  destruct (button =? 1); [|done].
  destruct (is_ai_turn g); simpl; [done|]. by apply handle_click_step.
Qed.

Lemma handle_events_steps events : ∀ g running,
  game_inv g →
  game_inv (foldl handle_event (g, running) events).1 ∧
  rtc game_step g (foldl handle_event (g, running) events).1 ∧
  (piece_count (board (foldl handle_event (g, running) events).1)
   ≤ piece_count (board g))%nat.
Proof.
  induction events as [|ev events IH]; intros g running Hinv; cbn [foldl]; [done|].
  destruct (handle_event_step g running ev Hinv) as [Hinv' Hstep].
  destruct (handle_event (g, running) ev) as [g1 running1] eqn:Hev.
  cbn [fst] in Hinv', Hstep.
  destruct (IH g1 running1 Hinv') as (Hinv'' & Hsteps & Hcount).
  pose proof (game_step_piece_count g g1 (proj1 Hinv) Hstep).
  split; [done|]. split; [by eapply rtc_l|lia].
Qed.

Lemma frame_steps rnd g events :
  game_inv g →
  ∃ g' running, frame rnd g events = Returned (g', running) ∧
    game_inv g' ∧ rtc game_step g g' ∧
    (piece_count (board g') ≤ piece_count (board g))%nat.
Proof.
  intros Hinv. unfold frame.
  destruct (ai_move_if_needed_cases rnd g Hinv) as (g1 & Hai & Hinv1 & Hsame & Hturn).
  assert (∃ g1', (if is_ai_turn g then ai_move_if_needed rnd g else Returned g)
                 = Returned g1' ∧ game_inv g1' ∧ game_step g g1')
    as (g1' & -> & Hinv1' & Hstep).
  { destruct (is_ai_turn g).
    - exists g1. split; [done|]. split; [done|].
      destruct (Hturn eq_refl) as [_ [?|?]]; [by right; right|by right; left].
    - exists g. split; [done|]. split; [done|]. by left. }
  destruct (handle_events_steps events g1' true Hinv1') as (Hinv2 & Hsteps & Hcount).
  pose proof (game_step_piece_count g g1' (proj1 Hinv) Hstep).
  destruct (foldl handle_event (g1', true) events) as [g2 running] eqn:Hfold.
  exists g2, running. split; [done|]. split; [done|].
  split; [by eapply rtc_l|simpl in *; lia].
Qed.

Lemma frames_steps inputs : ∀ g,
  game_inv g →
  ∃ g', frames g inputs = Returned g' ∧ game_inv g' ∧ rtc game_step g g' ∧
    (piece_count (board g') ≤ piece_count (board g))%nat.
Proof.
  induction inputs as [|[rnd events] inputs IH]; intros g Hinv; cbn [frames].
  { exists g. split; [done|]. split; [done|]. split; [apply rtc_refl|lia]. }
  destruct (frame_steps rnd g events Hinv) as (g1 & running & -> & Hinv1 & Hsteps & Hcount).
  destruct running.
  - destruct (IH g1 Hinv1) as (g2 & -> & Hinv2 & Hsteps2 & Hcount2).
    exists g2. split; [done|]. split; [done|].
    split; [by etrans|lia].
  - exists g1. split; [done|]. split; [done|]. by split.
Qed.

(** X18. The loop of [run], fed any draws and any batches of events, from
    a game whose board is 8x8 and whose cache of moves is up to date: no
    iteration raises; the board stays 8x8 and the cache up to date; the
    position only ever changes by a generated move of the side to move
    followed by a change of turn, or by the AI passing the turn when it has
    no move; and the number of pieces never grows.  From a new game there
    are never more than 32 pieces. *)
Theorem frames_safe (g : Game) (inputs : list (nat * list event)) :
  game_inv g →
  ∃ g', frames g inputs = Returned g' ∧ game_inv g' ∧ rtc game_step g g' ∧
    ai_color g' = ai_color g ∧
    (piece_count (board g') ≤ piece_count (board g))%nat ∧
    (board g = Board_init → (piece_count (board g') ≤ 32)%nat).
Proof.
  intros Hinv.
  destruct (frames_steps inputs g Hinv) as (g' & Hrun & Hinv' & Hsteps & Hcount).
  exists g'. split; [done|]. split; [done|]. split; [done|]. split.
  - clear Hrun Hinv Hinv' Hcount.
    induction Hsteps as [|g g1 g2 Hstep _ IH]; [done|]. rewrite IH.
    destruct Hstep as [(_ & _ & ?)|[(m & _ & _ & _ & ? & _)|(_ & _ & _ & _ & ? & _)]];
      done.
  - split; [done|]. intros Hb. rewrite Hb in Hcount.
    change (piece_count Board_init) with 32%nat in Hcount. done.
Qed.

Lemma frames_safe_witness :
  let g := Game_init Black in
  let inputs := [(0%nat, [MOUSEBUTTONDOWN 1 (330, 490); MOUSEBUTTONDOWN 1 (330, 330)]);
                 (5%nat, [OtherEvent; QUIT])] in
  game_inv g ∧
  ∃ g', frames g inputs = Returned g' ∧ game_inv g' ∧ rtc game_step g g' ∧
    ai_color g' = ai_color g ∧
    (piece_count (board g') ≤ piece_count (board g))%nat ∧
    (board g = Board_init → (piece_count (board g') ≤ 32)%nat).
Proof.
  intros g inputs.
  assert (game_inv g) as Hinv.
  { split; [|reflexivity]. split; [reflexivity|vm_compute; repeat constructor]. }
  split; [exact Hinv|]. exact (frames_safe g inputs Hinv).
Defined.

(** ** The object store: the methods against their value-level reading *)

Lemma init_repr_fresh (h : gmap nat Store.obj) :
  ∃ b h' g rs, Store.init h = Some (b, h') ∧ Store.repr h' b g rs Board_init ∧
    b ∉ dom h ∧ (∀ l, l ∈ dom h → h' !! l = h !! l).
Proof.
  unfold Store.init.
  destruct (alloc_rows_spec (Z.to_nat ROWS) h (replicate (Z.to_nat COLS) None))
    as (rs & h1 & -> & Hdom & Hsame & Hnd & Hnew & Hrows); [done|].
  unfold Store.alloc.
  pose proof (is_fresh (dom h1)) as Hg. set (g := fresh (dom h1)) in *.
  pose proof (is_fresh (dom (<[g := Store.OGrid rs]> h1))) as Hb.
  set (b := fresh (dom (<[g := Store.OGrid rs]> h1))) in *.
  rewrite dom_insert_L in Hb.
  assert (b ≠ g) as Hbg by set_solver.
  set (h2 := <[b := Store.OBoard g]> (<[g := Store.OGrid rs]> h1)).
  assert (Store.repr h2 b g rs
            (mkBoard (replicate (Z.to_nat ROWS) (replicate (Z.to_nat COLS) None))))
    as Hrepr.
  { split; [by apply lookup_insert_eq|].
    split; [unfold h2; by rewrite lookup_insert_ne, lookup_insert_eq|].
    split; [done|].
    split; [by rewrite (Forall2_length _ _ _ Hrows), length_replicate|].
    apply Forall2_same_length_lookup. split; [by eapply Forall2_length|].
    intros i l cs Hl Hcs.
    assert (l ∈ dom h1) by (apply Hnew; by eapply list_elem_of_lookup_2).
    unfold h2. rewrite !lookup_insert_ne by set_solver.
    by apply (Forall2_lookup_lr _ _ _ _ _ _ Hrows Hl Hcs). }
  destruct (reset_repr _ _ _ _ _ Hrepr) as (h' & rs' & -> & Hrepr' & Hframe & _ & _).
  cbn [mbind option_bind]. exists b, h', g, rs'.
  split; [done|]. split; [done|]. split; [set_solver|].
  intros l Hl. rewrite Hframe.
  - unfold h2. rewrite !lookup_insert_ne by set_solver. by apply Hsame.
  - unfold h2. rewrite !dom_insert_L. set_solver.
  - unfold Store.objects. rewrite !elem_of_union, !elem_of_singleton, elem_of_list_to_set.
    intros [[->| ->]|Hrs]; [set_solver..|]. by apply (Hnew l Hrs).
Qed.

(** X19. [Board()] run in any store does not raise and returns a new,
    well-formed instance holding the standard starting position; no object
    that was in the store is written. *)
Theorem init_fresh_instance (h : gmap nat Store.obj) :
  ∃ b h', Store.init h = Some (b, h') ∧
    Store.wf h' b ∧ Store.contents h' b = Some Board_init ∧
    b ∉ dom h ∧ (∀ l, l ∈ dom h → h' !! l = h !! l).
Proof.
  destruct (init_repr_fresh h) as (b & h' & g & rs & Hinit & Hrepr & Hb & Hsame).
  exists b, h'. split; [done|]. split; [by eapply repr_wf|].
  split; [by eapply repr_contents|]. by split.
Qed.

(** X20. On a well-formed instance the methods are their value-level
    readings: [get] and [material_score] return what the functions on the
    contents return, and any sequence of [set], [move_piece] and [reset]
    calls runs without raising, leaves the instance well-formed and changes
    its contents as the functions, applied in the same order, do. *)
Theorem methods_refine (h : gmap nat Store.obj) (b : nat)
    (ms : list Store.mutation) :
  Store.wf h b →
  ∃ bd h', Store.contents h b = Some bd ∧ wf_board bd ∧
    (∀ r c, Store.get h b r c = Some (get bd r c)) ∧
    (∀ color, Store.material_score h b color = Some (material_score bd color)) ∧
    Store.run h b ms = Some h' ∧
    Store.wf h' b ∧
    Store.contents h' b = Some (foldl apply_value bd ms).
Proof.
  intros (g & rs & bd & Hrepr)%wf_repr.
  destruct (run_repr ms _ _ _ _ _ Hrepr) as (h' & rs' & Hrun & Hrepr' & _).
  exists bd, h'. split; [by eapply repr_contents|]. split; [by eapply repr_wf_board|].
  split; [intros r c; by eapply repr_get|].
  split; [intros color; by eapply repr_material_score|].
  split; [done|]. split; [by eapply repr_wf|by eapply repr_contents].
Qed.

Lemma methods_refine_witness :
  let h := start_store.2 in
  let b := start_store.1 in
  let ms := [Store.MMove (6, 4) (4, 4) None; Store.MSet 0 0 None; Store.MReset] in
  Store.wf h b ∧
  ∃ bd h', Store.contents h b = Some bd ∧ wf_board bd ∧
    (∀ r c, Store.get h b r c = Some (get bd r c)) ∧
    (∀ color, Store.material_score h b color = Some (material_score bd color)) ∧
    Store.run h b ms = Some h' ∧
    Store.wf h' b ∧
    Store.contents h' b = Some (foldl apply_value bd ms).
Proof.
  intros h b ms.
  assert (Store.wf h b) as Hwf
    by (apply (bool_decide_unpack _); vm_compute; reflexivity).
  split; [exact Hwf|]. exact (methods_refine h b ms Hwf).
Defined.

Lemma clone_repr_fresh (h : gmap nat Store.obj) b g rs bd :
  Store.repr h b g rs bd →
  ∃ b' h' g' rs', Store.clone h b = Some (b', h') ∧
    Store.repr h' b' g' rs' bd ∧ b' ∉ dom h ∧
    (∀ l, l ∈ dom h → h' !! l = h !! l).
Proof.
  intros Hrepr. pose proof Hrepr as (Hb & Hg & Hnd & Hlen & Hrows).
  unfold Store.clone, Store.grid_ref, Store.rows_of.
  rewrite Hb. cbn [mbind option_bind]. rewrite Hg. cbn [mbind option_bind].
  destruct (copy_rows_spec rs h ∅ (grid bd) Hnd) as
    (rs' & h1 & -> & Hdom & Hsame & Hnd' & Hnew & Hrows'); [done|done|].
  cbn [mbind option_bind]. unfold Store.alloc.
  pose proof (is_fresh (dom h1)) as Hg'. set (g' := fresh (dom h1)) in *.
  pose proof (is_fresh (dom (<[g' := Store.OGrid rs']> h1))) as Hb'.
  set (b' := fresh (dom (<[g' := Store.OGrid rs']> h1))) in *.
  rewrite dom_insert_L in Hb'.
  assert (b' ≠ g') as Hbg by set_solver.
  assert (∀ l, l ∈ dom h1 →
    <[b' := Store.OBoard g']> (<[g' := Store.OGrid rs']> h1) !! l = h1 !! l) as Hold.
  { intros l Hl. rewrite !lookup_insert_ne; [done|set_solver..]. }
  eexists b', _, g', rs'. split; [done|]. split; [|split].
  - split; [by rewrite lookup_insert_eq|].
    split; [by rewrite lookup_insert_ne, lookup_insert_eq|].
    split; [done|].
    split; [by rewrite (Forall2_length _ _ _ Hrows'), <- (Forall2_length _ _ _ Hrows)|].
    apply Forall2_same_length_lookup. split; [by eapply Forall2_length|].
    intros i l cs Hl Hcs. rewrite Hold.
    + by apply (Forall2_lookup_lr _ _ _ _ _ _ Hrows' Hl Hcs).
    + apply list_elem_of_lookup_2 in Hl. by apply Hnew.
  - set_solver.
  - intros l Hl. rewrite Hold by set_solver. by apply Hsame.
Qed.

(** X21. [clone] of a well-formed instance does not raise and returns a
    new well-formed instance with the same contents; it writes no object
    that was in the store, so every instance of the store, not only the
    cloned one, is as it was. *)
Theorem clone_fresh_copy (h : gmap nat Store.obj) (b : nat) :
  Store.wf h b →
  ∃ b' h', Store.clone h b = Some (b', h') ∧
    Store.wf h' b' ∧ Store.contents h' b' = Store.contents h b ∧
    b' ∉ dom h ∧ (∀ l, l ∈ dom h → h' !! l = h !! l).
Proof.
  intros (g & rs & bd & Hrepr)%wf_repr.
  destruct (clone_repr_fresh _ _ _ _ _ Hrepr)
    as (b' & h' & g' & rs' & Hclone & Hrepr' & Hb' & Hsame).
  exists b', h'. split; [done|]. split; [by eapply repr_wf|].
  split; [|by split].
  by rewrite (repr_contents _ _ _ _ _ Hrepr'), (repr_contents _ _ _ _ _ Hrepr).
Qed.

Lemma clone_fresh_copy_witness :
  let h := start_store.2 in
  let b := start_store.1 in
  Store.wf h b ∧
  ∃ b' h', Store.clone h b = Some (b', h') ∧
    Store.wf h' b' ∧ Store.contents h' b' = Store.contents h b ∧
    b' ∉ dom h ∧ (∀ l, l ∈ dom h → h' !! l = h !! l).
Proof.
  intros h b.
  assert (Store.wf h b) as Hwf
    by (apply (bool_decide_unpack _); vm_compute; reflexivity).
  split; [exact Hwf|]. exact (clone_fresh_copy h b Hwf).
Defined.

(** ** [Rules]: no move is generated twice *)

Lemma NoDup_if_singleton {A} (cond : bool) (x : A) :
  NoDup (if cond then [x] else []).
Proof. destruct cond; [apply NoDup_singleton|apply NoDup_nil_2]. Qed.

Lemma step_move_NoDup b r c color d : NoDup (step_move b r c color d).
Proof.
  unfold step_move. destruct (negb _); [apply NoDup_nil_2|].
  apply NoDup_if_singleton.
Qed.

Lemma step_moves_NoDup b r c color (deltas : list (Z * Z)) :
  NoDup deltas → NoDup (d ← deltas; step_move b r c color d).
Proof.
  intros Hnd. apply NoDup_bind; [|intros; apply step_move_NoDup|done].
  intros [a1 a2] [b1 b2] m _ _ [-> _]%step_move_iff [[= H1 H2] _]%step_move_iff.
  simpl in *. f_equal; lia.
Qed.

Lemma pawn_moves_NoDup b r c piece : NoDup (pawn_moves b r c piece).
Proof.
  unfold pawn_moves. set (d := dir_forward piece.1).
  assert (d ≠ 0) as Hd by (unfold d; by destruct piece.1).
  cbv zeta. apply NoDup_app. split; [|split].
  - destruct (in_bounds (r + d) c && is_empty (get b (r + d) c)); [|apply NoDup_nil_2].
    apply NoDup_cons. split; [|apply NoDup_if_singleton].
    intros [_ [= Heq]]%elem_of_if_singleton. lia.
  - intros m Hfwd (dc & [_ ->]%elem_of_if_singleton & Hdc)%list_elem_of_bind.
    assert (dc ≠ 0) as Hdc0.
    { apply elem_of_cons in Hdc as [->|Hdc]; [done|].
      by apply list_elem_of_singleton in Hdc as ->. }
    destruct (in_bounds (r + d) c && is_empty (get b (r + d) c));
      [|by apply elem_of_nil in Hfwd].
    apply elem_of_cons in Hfwd as [[= Heq]|[_ [= _ Heq]]%elem_of_if_singleton]; lia.
  - apply NoDup_bind; [|intros; apply NoDup_if_singleton|].
    + intros d1 d2 m _ _ [_ ->]%elem_of_if_singleton [_ [= Heq]]%elem_of_if_singleton.
      lia.
    + apply (bool_decide_unpack _). by vm_compute.
Qed.

Lemma ray_NoDup fuel b r c color dr dc : ∀ nr nc,
  dr ≠ 0 ∨ dc ≠ 0 → NoDup (ray fuel b r c color nr nc dr dc).
Proof.
  induction fuel as [|fuel IH]; intros nr nc Hd; cbn [ray]; [apply NoDup_nil_2|].
  destruct (in_bounds nr nc); [|apply NoDup_nil_2].
  destruct (get b nr nc) as [target|]; [apply NoDup_if_singleton|].
  apply NoDup_cons. split; [|by apply IH].
  intros (k & Hk & [= H1 H2] & _)%ray_iff.
  assert ((k + 1) * dr = 0) as H1' by lia.
  assert ((k + 1) * dc = 0) as H2' by lia.
  apply Z.mul_eq_0 in H1', H2'. lia.
Qed.

Lemma unit_directions_apart (d1 d2 : Z * Z) k1 k2 :
  d1 ∈ queen_directions → d2 ∈ queen_directions → 0 ≤ k1 → 0 ≤ k2 →
  d1.1 + k1 * d1.1 = d2.1 + k2 * d2.1 →
  d1.2 + k1 * d1.2 = d2.2 + k2 * d2.2 →
  d1 = d2.
Proof.
  intros (Ha1 & Ha2 & _)%unit_direction (Hb1 & Hb2 & _)%unit_direction Hk1 Hk2.
  destruct d1 as [a1 a2], d2 as [b1 b2]. simpl in *. intros H1 H2.
  assert (a1 = -1 ∨ a1 = 0 ∨ a1 = 1) as Hc1 by lia.
  assert (a2 = -1 ∨ a2 = 0 ∨ a2 = 1) as Hc2 by lia.
  assert (b1 = -1 ∨ b1 = 0 ∨ b1 = 1) as Hc3 by lia.
  assert (b2 = -1 ∨ b2 = 0 ∨ b2 = 1) as Hc4 by lia.
  destruct_or!; subst; f_equal; lia.
Qed.

Lemma sliding_moves_NoDup b r c piece ptype :
  NoDup (sliding_moves b r c piece (sliding_directions ptype)).
Proof.
  unfold sliding_moves, sliding_moves_fuel. apply NoDup_bind.
  - intros d1 d2 m Hd1%sliding_directions_queen Hd2%sliding_directions_queen
      (k1 & Hk1 & -> & _)%ray_iff (k2 & Hk2 & [= H1 H2] & _)%ray_iff.
    apply (unit_directions_apart d1 d2 k1 k2); [done|done|lia|lia|lia|lia].
  - intros d Hd%sliding_directions_queen%unit_direction. apply ray_NoDup. tauto.
  - destruct ptype; apply (bool_decide_unpack _); by vm_compute.
Qed.

Lemma piece_moves_NoDup b r c piece : NoDup (piece_moves b r c piece).
Proof.
  unfold piece_moves, knight_moves, king_moves. destruct piece.2.
  - apply pawn_moves_NoDup.
  - apply step_moves_NoDup. apply (bool_decide_unpack _). by vm_compute.
  - apply (sliding_moves_NoDup b r c piece Bishop).
  - apply (sliding_moves_NoDup b r c piece Rook).
  - apply (sliding_moves_NoDup b r c piece Queen).
  - apply step_moves_NoDup. apply (bool_decide_unpack _). by vm_compute.
Qed.

(** X22. The generator never returns the same move twice, on any board and
    for either side: the moves of a piece are pairwise distinct, and moves
    of different squares differ by their source. *)
Theorem generate_legal_moves_NoDup (b : Board) (color : Color) :
  NoDup (generate_legal_moves b color).
Proof.
  unfold generate_legal_moves. apply NoDup_bind; [| |apply squares_NoDup].
  - intros sq1 sq2 m _ _ H1 H2.
    destruct (get b sq1.1 sq1.2) as [p1|]; [|by apply elem_of_nil in H1].
    destruct (get b sq2.1 sq2.2) as [p2|]; [|by apply elem_of_nil in H2].
    repeat case_decide; try (by apply elem_of_nil in H1); try (by apply elem_of_nil in H2).
    destruct (piece_moves_ok _ _ _ _ _ H1) as (Hs1 & _).
    destruct (piece_moves_ok _ _ _ _ _ H2) as (Hs2 & _).
    destruct sq1, sq2. simpl in *. congruence.
  - intros sq _. destruct (get b sq.1 sq.2) as [piece|]; [|apply NoDup_nil_2].
    case_decide; [apply piece_moves_NoDup|apply NoDup_nil_2].
Qed.
